(** * The generic sequence toolkit of marguerite/util (Go package [slice])

    A shallow embedding of [Contains], [Remove], [Unique], [Intersect],
    [Concat], [Replace] and [Flatten] together with the part of Go's
    [reflect] package they are written against.

    Go values are described the way [reflect] sees them: a type and the data
    stored under that type.  A panic is an explicit result, and the caller's
    variable a mutating operation receives a pointer to is threaded as state,
    so that what is left in it after an error or a panic can be stated.

    Not modelled: floating point, maps, channels, functions and pointers as
    element types, slice capacities and the sharing of backing arrays. *)

From Stdlib Require Import List String Bool Arith ZArith Lia Sorted.
Import ListNotations.
Local Open Scope string_scope.
Local Open Scope nat_scope.
Local Open Scope list_scope.

Scheme All for list.

(** ** Results of a call: a value, or a run-time panic *)

Inductive result (A : Type) : Type :=
| Ok (a : A)
| Panicked (msg : string).
Arguments Ok {A} a.
Arguments Panicked {A} msg.

Definition bind {A B : Type} (r : result A) (k : A -> result B) : result B :=
  match r with
  | Ok a => k a
  | Panicked msg => Panicked msg
  end.

Notation "x <- c ;; k" := (bind c (fun x => k))
  (at level 61, c at next level, right associativity).

(** ** The fragment of package [reflect] *)

Module reflect.

Inductive Kind : Set :=
| Invalid | Bool | Int | String | Interface | Ptr | Slice | Array | Struct.

Definition Kind_eqb (a b : Kind) : bool :=
  match a, b with
  | Invalid, Invalid | Bool, Bool | Int, Int | String, String
  | Interface, Interface | Ptr, Ptr | Slice, Slice | Array, Array
  | Struct, Struct => true
  | _, _ => false
  end.

(** Go types: [bool], [int], [string], [interface{}], [[]T], [[n]T] and named
    struct types with the types of their fields. *)
Inductive rtype : Set :=
| Tbool
| Tint
| Tstring
| Tiface
| Tslice (elem : rtype)
| Tarray (n : nat) (elem : rtype)
| Tstruct (name : string) (fields : list rtype).

(** The data stored under a type.  [Vnil] is the nil slice under a slice type
    and the nil interface under [interface{}]; [Viface t v] is an interface
    holding [v] of dynamic type [t]. *)
Inductive val : Set :=
| Vbool (b : bool)
| Vint (n : Z)
| Vstring (s : string)
| Vnil
| Vslice (l : list val)
| Varray (l : list val)
| Vstruct (fs : list val)
| Viface (t : rtype) (v : val).

(** A [reflect.Value]: the zero Value, or a typed datum. *)
Inductive Value : Set :=
| Zero
| Val (t : rtype) (v : val).

(** An [interface{}] holding an ordinary value (or nil). *)
Inductive iface : Set :=
| Nil
| Box (t : rtype) (v : val).

(** An [interface{}] argument: an ordinary value, or a [reflect.Value] that
    was itself put in an interface (the recursive calls pass such).  The
    Values meant are those [reflect.ValueOf] and [Index] give, as the
    recursive calls pass them; a Value reached through an unexported struct
    field (read-only for [reflect]) is not among them. *)
Inductive any : Set :=
| Of (i : iface)
| OfValue (x : Value).

Definition Type_Kind (t : rtype) : Kind :=
  match t with
  | Tbool => Bool
  | Tint => Int
  | Tstring => String
  | Tiface => Interface
  | Tslice _ => Slice
  | Tarray _ _ => Array
  | Tstruct _ _ => Struct
  end.

Definition Value_Kind (x : Value) : Kind :=
  match x with
  | Zero => Invalid
  | Val t _ => Type_Kind t
  end.

(** [reflect.Value] is a struct of three unexported fields; a boxed one is
    only ever looked at through its kind. *)
Definition Value_type : rtype := Tstruct "reflect.Value" [].

Definition ValueOf (a : any) : Value :=
  match a with
  | Of Nil => Zero
  | Of (Box t v) => Val t v
  | OfValue _ => Val Value_type (Vstruct [])
  end.

Fixpoint rtype_eqb (a b : rtype) {struct a} : bool :=
  match a, b with
  | Tbool, Tbool | Tint, Tint | Tstring, Tstring | Tiface, Tiface => true
  | Tslice x, Tslice y => rtype_eqb x y
  | Tarray n x, Tarray m y => Nat.eqb n m && rtype_eqb x y
  | Tstruct s fs, Tstruct s' fs' =>
      String.eqb s s' &&
      (fix all2 (l l' : list rtype) {struct l} : bool :=
         match l, l' with
         | [], [] => true
         | x :: r, y :: r' => rtype_eqb x y && all2 r r'
         | _, _ => false
         end) fs fs'
  | _, _ => false
  end.

(** [deepValueEqual] on two data of one type: element by element, a nil
    slice differing from an empty one, interfaces by dynamic type and
    content. *)
Fixpoint deepValueEqual (a b : val) {struct a} : bool :=
  let all2 :=
    fix all2 (l l' : list val) {struct l} : bool :=
      match l, l' with
      | [], [] => true
      | x :: r, y :: r' => deepValueEqual x y && all2 r r'
      | _, _ => false
      end in
  match a, b with
  | Vbool x, Vbool y => Bool.eqb x y
  | Vint x, Vint y => Z.eqb x y
  | Vstring x, Vstring y => String.eqb x y
  | Vnil, Vnil => true
  | Vslice l, Vslice l' => all2 l l'
  | Varray l, Varray l' => all2 l l'
  | Vstruct l, Vstruct l' => all2 l l'
  | Viface t x, Viface t' y => rtype_eqb t t' && deepValueEqual x y
  | _, _ => false
  end.

(** [reflect.DeepEqual(x, y)]: two nils are equal, a nil and a non-nil are
    not, otherwise the types must be identical and the data deeply equal. *)
Definition DeepEqual (x y : iface) : bool :=
  match x, y with
  | Nil, Nil => true
  | Box t v, Box t' v' => rtype_eqb t t' && deepValueEqual v v'
  | _, _ => false
  end.

(** The elements [Len] counts and [Index] reaches. *)
Definition elems (v : val) : list val :=
  match v with
  | Vslice l | Varray l => l
  | _ => []
  end.

(** [v.Len()]; every call site has checked that the kind is Slice or Array. *)
Definition Value_Len (x : Value) : nat :=
  match x with
  | Zero => 0
  | Val _ v => List.length (elems v)
  end.

(** [t.Elem()]: panics unless the type has elements. *)
Definition Type_Elem (t : rtype) : result rtype :=
  match t with
  | Tslice e | Tarray _ e => Ok e
  | _ => Panicked "reflect: Elem of invalid type"
  end.

(** [v.Type()]: panics on the zero Value. *)
Definition Value_Type (x : Value) : result rtype :=
  match x with
  | Zero => Panicked "reflect: call of reflect.Value.Type on zero Value"
  | Val t _ => Ok t
  end.

(** [v.Index(i)]: the element has the static element type of the
    container, whatever it holds. *)
Definition Value_Index (x : Value) (i : nat) : result Value :=
  match x with
  | Val (Tslice e) v | Val (Tarray _ e) v =>
      match nth_error (elems v) i with
      | Some d => Ok (Val e d)
      | None => Panicked "reflect: slice index out of range"
      end
  | _ => Panicked "reflect: call of reflect.Value.Index on a value without elements"
  end.

(** [v.Interface()]: an element of interface type gives the interface it
    holds, any other value is boxed with its type; panics on the zero
    Value.  (Its other panic, on a read-only Value, needs a Value reached
    through an unexported struct field, which [Value] does not describe.) *)
Definition Value_Interface (x : Value) : result iface :=
  match x with
  | Zero => Panicked "reflect: call of reflect.Value.Interface on zero Value"
  | Val Tiface (Viface t v) => Ok (Box t v)
  | Val Tiface _ => Ok Nil
  | Val t v => Ok (Box t v)
  end.

Fixpoint zero (t : rtype) : val :=
  match t with
  | Tbool => Vbool false
  | Tint => Vint 0
  | Tstring => Vstring ""
  | Tiface => Vnil
  | Tslice _ => Vnil
  | Tarray n e => Varray (repeat (zero e) n)
  | Tstruct _ fs => Vstruct (map zero fs)
  end.

(** What [Set] and [Append] do with the value they store: it must have the
    destination's type, or the destination is [interface{}] and boxes it.
    That is all of Go's assignability on the types of [rtype]: predeclared
    basic types, [interface{}], unnamed slice and array types and named
    struct types (no interface with methods, no unnamed struct type). *)
Definition assignTo (x : Value) (dst : rtype) : result val :=
  match x with
  | Zero => Panicked "reflect: call of reflect.Value.Set on zero Value"
  | Val t v =>
      if rtype_eqb t dst then Ok v
      else match dst with
           | Tiface => Ok (Viface t v)
           | _ => Panicked "reflect.Set: value is not assignable to type"
           end
  end.

(** [reflect.MakeSlice(typ, len, cap)] with [len] given as the difference
    the caller computes; a negative length panics. *)
Definition MakeSlice (t : rtype) (len sub : nat) : result Value :=
  match t with
  | Tslice e =>
      if len <? sub then Panicked "reflect.MakeSlice: negative len"
      else Ok (Val t (Vslice (repeat (zero e) (len - sub))))
  | _ => Panicked "reflect.MakeSlice of non-slice type"
  end.

Fixpoint update (l : list val) (i : nat) (d : val) {struct l} : option (list val) :=
  match l, i with
  | [], _ => None
  | _ :: r, O => Some (d :: r)
  | x :: r, S j => option_map (cons x) (update r j d)
  end.

(** The container's data with its elements replaced. *)
Definition with_elems (v : val) (l : list val) : val :=
  match v with
  | Varray _ => Varray l
  | _ => Vslice l
  end.

(** [s.Index(i).Set(x)] on a slice or an addressable array of type [t]
    holding [v]: the index is checked first, then the value is assigned to
    the element's type. *)
Definition setElem (t : rtype) (v : val) (i : nat) (x : Value) : result val :=
  match t with
  | Tslice e | Tarray _ e =>
      if i <? List.length (elems v) then
        d <- assignTo x e ;;
        match update (elems v) i d with
        | Some l => Ok (with_elems v l)
        | None => Panicked "reflect: slice index out of range"
        end
      else Panicked "reflect: slice index out of range"
  | _ => Panicked "reflect: call of reflect.Value.Index on a value without elements"
  end.

Definition SetIndex (s : Value) (i : nat) (x : Value) : result Value :=
  match s with
  | Zero => Panicked "reflect: call of reflect.Value.Index on zero Value"
  | Val t v => d <- setElem t v i x ;; Ok (Val t d)
  end.

(** The Values [v.Index(0)], ..., [v.Index(v.Len()-1)] a loop over a slice
    or an array visits. *)
Definition elements (x : Value) : list Value :=
  match x with
  | Val (Tslice e) v | Val (Tarray _ e) v => map (Val e) (elems v)
  | _ => []
  end.

(** [reflect.Append(s, x)]. *)
Definition Append (s x : Value) : result Value :=
  match s with
  | Val (Tslice e) v =>
      d <- assignTo x e ;;
      Ok (Val (Tslice e) (Vslice (elems v ++ [d])))
  | _ => Panicked "reflect: call of reflect.Append on a non-slice Value"
  end.

(** Whether [==] is defined on a type. *)
Fixpoint comparable (t : rtype) : bool :=
  match t with
  | Tslice _ => false
  | Tarray _ e => comparable e
  | Tstruct _ fs => forallb comparable fs
  | _ => true
  end.

(** Whether hashing a datum of a comparable type runs through: an interface
    inside it must hold a value that can itself be hashed. *)
Fixpoint hashes (t : rtype) (v : val) {struct v} : bool :=
  match t, v with
  | Tiface, Viface t' v' => comparable t' && hashes t' v'
  | Tarray _ e, Varray l => forallb (hashes e) l
  | Tstruct _ fs, Vstruct l =>
      (fix all2 (ts : list rtype) (l : list val) {struct l} : bool :=
         match ts, l with
         | t' :: ts', x :: l' => hashes t' x && all2 ts' l'
         | _, _ => true
         end) fs l
  | _, _ => true
  end.

(** A key of [map[interface{}]struct{}] can be hashed when its dynamic type
    is comparable and no interface inside it holds an incomparable value. *)
Definition hashable (k : iface) : bool :=
  match k with
  | Nil => true
  | Box t v => comparable t && hashes t v
  end.

(** [t.AssignableTo(dst)] on the types of [rtype]: the types are identical,
    or [dst] is [interface{}] -- the test [assignTo] makes. *)
Definition AssignableTo (t dst : rtype) : bool :=
  rtype_eqb t dst || match dst with Tiface => true | _ => false end.

(** [v.String()] on a Value of kind String, the only kind [shortest] calls
    it on; [v.Len()] is then the number of bytes of that string. *)
Definition Value_String (x : Value) : string :=
  match x with
  | Val _ (Vstring s) => s
  | _ => ""
  end.

(** [v.Int()]: panics unless the kind is Int. *)
Definition Value_Int (x : Value) : result Z :=
  match x with
  | Val Tint (Vint n) => Ok n
  | _ => Panicked "reflect: call of reflect.Value.Int on a Value that is no int"
  end.

End reflect.

(** ** Package [slice] *)

Import reflect.

Inductive error : Set :=
| ErrNotSlice
| ErrNotPointer
| ErrNotSameType.

(** The caller's variable: its type and what it holds. *)
Definition variable : Set := (rtype * val)%type.

(** The [src] argument of a mutating operation: the address of the caller's
    variable, a nil pointer, or something that is no pointer. *)
Inductive source : Set :=
| AddressOf
| NilPointer
| NotPointer (a : any).

(** [sv := reflect.ValueOf(src); if sv.Kind() == reflect.Ptr { sv = sv.Elem() }]:
    [None] when [src] is no pointer. *)
Definition deref (src : source) (x : variable) : option Value :=
  match src with
  | AddressOf => Some (Val (fst x) (snd x))
  | NilPointer => Some Zero
  | NotPointer _ => None
  end.

(** [v, ok := element.(reflect.Value); if ok { ev = v } else { ev = reflect.ValueOf(element) }] *)
Definition toValue (element : any) : Value :=
  match element with
  | OfValue v => v
  | Of _ => ValueOf element
  end.

Definition isSlice (v : Value) : bool := Kind_eqb (Value_Kind v) Slice.

(** [sv.Set(tmp)] on the variable [sv] stands for. *)
Definition Value_Set (x : variable) (tmp : Value) : result variable :=
  d <- assignTo tmp (fst x) ;; Ok (fst x, d).

(** [tmp := ...; sv.Set(tmp); return nil]: the variable changes only when
    [tmp] was computed and stored without a panic. *)
Definition commit (x : variable) (tmp : result Value)
  : result (option error) * variable :=
  match tmp <- tmp ;; Value_Set x tmp with
  | Ok x' => (Ok None, x')
  | Panicked msg => (Panicked msg, x)
  end.

(** The key set [m := make(map[interface{}]struct{})]: the keys stored so
    far.  A lookup or a store hashes the key first and panics if that is
    impossible; two keys that can be hashed are [==] when their dynamic
    types are identical and their data equal -- on the types of [rtype],
    which have no floating-point part (a NaN is a key no lookup finds). *)
Definition keyset : Set := list iface.

Definition mapaccess (m : keyset) (k : iface) : result bool :=
  if hashable k then Ok (existsb (DeepEqual k) m)
  else Panicked "runtime error: hash of unhashable type".

Definition mapassign (m : keyset) (k : iface) : result keyset :=
  if hashable k then Ok (k :: m)
  else Panicked "runtime error: hash of unhashable type".

(** [removeFromSlice]'s loop: [i] runs over the indices, [n] counts the
    removed ones. *)
Fixpoint removeLoop (idx : list nat) (rest : list Value) (i n : nat)
                    (tmp : Value) {struct rest} : result Value :=
  match rest with
  | [] => Ok tmp
  | vi :: rest' =>
      if existsb (fun j => Nat.eqb j i) idx
      then removeLoop idx rest' (S i) (S n) tmp
      else tmp' <- SetIndex tmp (i - n) vi ;;
           removeLoop idx rest' (S i) n tmp'
  end.

Definition removeFromSlice (idx : list nat) (v : Value) : result Value :=
  t <- Value_Type v ;;
  tmp <- MakeSlice t (Value_Len v) (List.length idx) ;;
  removeLoop idx (elements v) 0 0 tmp.

Section Toolkit.

(** [encoding/json]'s [Marshal] on a struct, as the string of the bytes it
    returns (its error is dropped by [genKey]). *)
Variable Marshal : iface -> string.

Definition genKey (v : Value) : result iface :=
  k <- Value_Interface v ;;
  if Kind_eqb (Value_Kind v) Struct
  then Ok (Box Tstring (Vstring (Marshal k)))
  else Ok k.

(** *** Contains *)

(** The loop of the branch for a needle that is neither slice nor array. *)
Fixpoint containsElement (ev : Value) (l : list Value) {struct l}
  : result (bool * option error) :=
  match l with
  | [] => Ok (false, None)
  | vi :: l' =>
      a <- Value_Interface vi ;;
      b <- Value_Interface ev ;;
      if DeepEqual a b then Ok (true, None) else containsElement ev l'
  end.

(** The loop of the branch for a slice or array needle, [f] being the
    recursive call on one element of the source. *)
Fixpoint containsAny (f : Value -> option (result (bool * option error)))
                     (l : list Value) {struct l}
  : option (result (bool * option error)) :=
  match l with
  | [] => Some (Ok (false, None))
  | vi :: l' =>
      match f vi with
      | None => None
      | Some (Panicked msg) => Some (Panicked msg)
      | Some (Ok (_, Some e)) => Some (Ok (false, Some e))
      | Some (Ok (true, None)) => Some (Ok (true, None))
      | Some (Ok (false, None)) => containsAny f l'
      end
  end.

(** The recursion swaps its arguments; [fuel] bounds its depth ([None] when
    it runs out). *)
Fixpoint ContainsN (fuel : nat) (src element : any) {struct fuel}
  : option (result (bool * option error)) :=
  match fuel with
  | O => None
  | S fuel' =>
      let sv := ValueOf src in
      let ev := toValue element in
      if negb (isSlice sv) then Some (Ok (false, Some ErrNotSlice))
      else if Kind_eqb (Value_Kind ev) Slice || Kind_eqb (Value_Kind ev) Array
      then containsAny (fun vi => ContainsN fuel' element (OfValue vi)) (elements sv)
      else Some (containsElement ev (elements sv))
  end.

(** Three levels are all the recursion can reach (see [ContainsN_fuel]). *)
Definition Contains (src element : any) : option (result (bool * option error)) :=
  ContainsN 3 src element.

(** *** Remove *)

(** The loop collecting the indices of the elements deeply equal to [ev]. *)
Fixpoint removeIndices (ev : Value) (l : list Value) (i : nat) (idx : list nat)
  {struct l} : result (list nat) :=
  match l with
  | [] => Ok idx
  | vi :: l' =>
      a <- Value_Interface vi ;;
      b <- Value_Interface ev ;;
      removeIndices ev l' (S i) (if DeepEqual a b then idx ++ [i] else idx)
  end.

(** The branch of [Remove] for a needle that is no slice. *)
Definition removeElement (sv ev : Value) (x : variable)
  : result (option error) * variable :=
  match t <- Value_Type sv ;; Type_Elem t with
  | Panicked msg => (Panicked msg, x)
  | Ok e =>
      if Kind_eqb (Type_Kind e) (Value_Kind ev) then
        commit x (idx <- removeIndices ev (elements sv) 0 [] ;;
                  removeFromSlice idx sv)
      else (Ok (Some ErrNotSameType), x)
  end.

(** [for i := 0; i < ev.Len(); i++ { e := Remove(src, ev.Index(i)); if e != nil { return e } }]
    with [f] the call on one element. *)
Fixpoint removeEach (f : val -> variable -> result (option error) * variable)
                    (l : list val) (x : variable) {struct l}
  : result (option error) * variable :=
  match l with
  | [] => (Ok None, x)
  | di :: l' =>
      match f di x with
      | (Ok None, x') => removeEach f l' x'
      | r => r
      end
  end.

(** [Remove] on a needle [ev = Val t d]; the recursive calls are on the
    elements of the needle, each with the needle's element type, and start
    over from [src]. *)
Fixpoint RemoveValue (src : source) (t : rtype) (d : val) (x : variable)
  {struct d} : result (option error) * variable :=
  match deref src x with
  | None => (Ok (Some ErrNotPointer), x)
  | Some sv =>
      if negb (isSlice sv) then (Ok (Some ErrNotSlice), x)
      else
        match t with
        | Tslice e =>
            match d with
            | Vslice l | Varray l => removeEach (RemoveValue src e) l x
            | _ => (Ok None, x)
            end
        | _ => removeElement sv (Val t d) x
        end
  end.

Definition Remove (src : source) (element : any) (x : variable)
  : result (option error) * variable :=
  match toValue element with
  | Val t d => RemoveValue src t d x
  | Zero =>
      match deref src x with
      | None => (Ok (Some ErrNotPointer), x)
      | Some sv =>
          if negb (isSlice sv) then (Ok (Some ErrNotSlice), x)
          else removeElement sv Zero x
      end
  end.

(** *** Unique *)

Fixpoint uniqueIndices (l : list Value) (i : nat) (m : keyset) (idx : list nat)
  {struct l} : result (list nat) :=
  match l with
  | [] => Ok idx
  | vi :: l' =>
      k <- genKey vi ;;
      ok <- mapaccess m k ;;
      if ok then uniqueIndices l' (S i) m (idx ++ [i])
      else m' <- mapassign m k ;; uniqueIndices l' (S i) m' idx
  end.

Definition Unique (src : source) (x : variable)
  : result (option error) * variable :=
  match deref src x with
  | None => (Ok (Some ErrNotPointer), x)
  | Some sv =>
      if negb (isSlice sv) then (Ok (Some ErrNotSlice), x)
      else commit x (idx <- uniqueIndices (elements sv) 0 [] [] ;;
                     removeFromSlice idx sv)
  end.

(** *** Intersect *)

(** [for i := 0; i < v.Len(); i++ { m[genKey(v.Index(i))] = struct{}{} }] *)
Fixpoint keysOf (l : list Value) (m : keyset) {struct l} : result keyset :=
  match l with
  | [] => Ok m
  | vi :: l' =>
      k <- genKey vi ;;
      m' <- mapassign m k ;;
      keysOf l' m'
  end.

Fixpoint intersectIndices (m : keyset) (l : list Value) (j : nat) (idx : list nat)
  {struct l} : result (list nat) :=
  match l with
  | [] => Ok idx
  | vj :: l' =>
      k <- genKey vj ;;
      ok <- mapaccess m k ;;
      intersectIndices m l' (S j) (if ok then idx else idx ++ [j])
  end.

Definition Intersect (src : source) (dst : any) (x : variable)
  : result (option error) * variable :=
  let dv := ValueOf dst in
  match deref src x with
  | None => (Ok (Some ErrNotPointer), x)
  | Some sv =>
      if negb (forallb isSlice [sv; dv]) then (Ok (Some ErrNotSlice), x)
      else commit x (m <- keysOf (elements dv) [] ;;
                     idx <- intersectIndices m (elements sv) 0 [] ;;
                     removeFromSlice idx sv)
  end.

(** *** Concat *)

(** [if _, ok := m[genKey(v)]; !ok { sv.Set(reflect.Append(sv, v)) }] with
    [sv] the caller's variable as it is now. *)
Definition appendNew (m : keyset) (v : Value) (x : variable)
  : result unit * variable :=
  match k <- genKey v ;; mapaccess m k with
  | Panicked msg => (Panicked msg, x)
  | Ok true => (Ok tt, x)
  | Ok false =>
      match s <- Append (Val (fst x) (snd x)) v ;; Value_Set x s with
      | Ok x' => (Ok tt, x')
      | Panicked msg => (Panicked msg, x)
      end
  end.

Fixpoint concatLoop (m : keyset) (l : list Value) (x : variable) {struct l}
  : result (option error) * variable :=
  match l with
  | [] => (Ok None, x)
  | vj :: l' =>
      match appendNew m vj x with
      | (Ok _, x') => concatLoop m l' x'
      | (Panicked msg, x') => (Panicked msg, x')
      end
  end.

Definition Concat (src : source) (dst : any) (x : variable)
  : result (option error) * variable :=
  let dv := ValueOf dst in
  match deref src x with
  | None => (Ok (Some ErrNotPointer), x)
  | Some sv =>
      if negb (isSlice sv) then (Ok (Some ErrNotSlice), x)
      else
        match keysOf (elements sv) [] with
        | Panicked msg => (Panicked msg, x)
        | Ok m =>
            if Kind_eqb (Value_Kind dv) Slice then concatLoop m (elements dv) x
            else
              match t <- Value_Type sv ;; Type_Elem t with
              | Panicked msg => (Panicked msg, x)
              | Ok e =>
                  if Kind_eqb (Type_Kind e) (Value_Kind dv) then
                    match appendNew m dv x with
                    | (Ok _, x') => (Ok None, x')
                    | (Panicked msg, x') => (Panicked msg, x')
                    end
                  else (Ok (Some ErrNotSameType), x)
              end
        end
  end.

(** *** Replace *)

(** The loop [for i := 0; i < sv.Len(); i++]; [n] iterations are left. *)
Fixpoint replaceLoop (ov nv : Value) (n i : nat) (x : variable) {struct n}
  : result (option error) * variable :=
  match n with
  | O => (Ok None, x)
  | S n' =>
      let sv := Val (fst x) (snd x) in
      match vi <- Value_Index sv i ;;
            a <- Value_Interface vi ;;
            b <- Value_Interface ov ;;
            Ok (DeepEqual a b) with
      | Panicked msg => (Panicked msg, x)
      | Ok false => replaceLoop ov nv n' (S i) x
      | Ok true =>
          match setElem (fst x) (snd x) i nv with
          | Panicked msg => (Panicked msg, x)
          | Ok d => replaceLoop ov nv n' (S i) (fst x, d)
          end
      end
  end.

Definition Replace (src : source) (old new : any) (x : variable)
  : result (option error) * variable :=
  let nv := ValueOf new in
  match deref src x with
  | None => (Ok (Some ErrNotPointer), x)
  | Some sv =>
      let ov := toValue old in
      match t <- Value_Type sv ;; Type_Elem t with
      | Panicked msg => (Panicked msg, x)
      | Ok e =>
          if negb (Kind_eqb (Type_Kind e) (Value_Kind nv))
          then (Ok (Some ErrNotSameType), x)
          else replaceLoop ov nv (Value_Len sv) 0 x
      end
  end.

(** *** Flatten *)

(** The first loop: [None] when an element is no slice or array (the early
    return), else the total length. *)
Fixpoint flattenLength (l : list Value) (length : nat) {struct l} : option nat :=
  match l with
  | [] => Some length
  | vin :: l' =>
      if Kind_eqb (Value_Kind vin) Slice || Kind_eqb (Value_Kind vin) Array
      then flattenLength l' (length + Value_Len vin)
      else None
  end.

Fixpoint flattenInner (l : list Value) (pos : nat) (s : Value) {struct l}
  : result (nat * Value) :=
  match l with
  | [] => Ok (pos, s)
  | v :: l' =>
      s' <- SetIndex s pos v ;;
      flattenInner l' (S pos) s'
  end.

Fixpoint flattenFill (l : list Value) (pos : nat) (s : Value) {struct l}
  : result Value :=
  match l with
  | [] => Ok s
  | vin :: l' =>
      r <- flattenInner (elements vin) pos s ;;
      flattenFill l' (fst r) (snd r)
  end.

Definition Flatten (slice : any) : result (any * option error) :=
  let sv := ValueOf slice in
  if Kind_eqb (Value_Kind sv) Slice || Kind_eqb (Value_Kind sv) Array then
    match flattenLength (elements sv) 0 with
    | None => Ok (slice, None)
    | Some length =>
        s0 <- Value_Index sv 0 ;;
        s00 <- Value_Index s0 0 ;;
        t <- Value_Type s00 ;;
        s <- MakeSlice (Tslice t) length 0 ;;
        s' <- flattenFill (elements sv) 0 s ;;
        r <- Value_Interface s' ;;
        Ok (Of r, None)
    end
  else Ok (slice, None).

End Toolkit.

(** *** shortest, ShortestString *)

(** One turn of [shortest]'s loop on the element [vi], [dst] being the
    shortest so far: the first element is taken as it is, a later one when
    it is a string with fewer bytes or an int that is smaller. *)
Definition shortestStep (vi : Value) (dst : iface) : result iface :=
  match dst with
  | Nil => Value_Interface vi
  | _ =>
      dst1 <-
        (if Kind_eqb (Value_Kind vi) String then
           if String.length (Value_String vi)
              <? String.length (Value_String (ValueOf (Of dst)))
           then Value_Interface vi else Ok dst
         else Ok dst) ;;
      if Kind_eqb (Value_Kind vi) Int then
        a <- Value_Int vi ;;
        b <- Value_Int (ValueOf (Of dst1)) ;;
        if (a <? b)%Z then Value_Interface vi else Ok dst1
      else Ok dst1
  end.

Fixpoint shortestLoop (l : list Value) (dst : iface) {struct l} : result iface :=
  match l with
  | [] => Ok dst
  | vi :: l' => dst' <- shortestStep vi dst ;; shortestLoop l' dst'
  end.

Definition shortest (src : any) : result (iface * option error) :=
  let sv := ValueOf src in
  if negb (isSlice sv) then Ok (Nil, Some ErrNotSlice)
  else dst <- shortestLoop (elements sv) Nil ;; Ok (dst, None).

(** The [[]string] with the given elements (a nil one has none, and behaves
    as the empty one). *)
Definition stringSlice (l : list string) : any :=
  Of (Box (Tslice Tstring) (Vslice (map Vstring l))).

(** [s, e := shortest(src); return s.(string), e]: the type assertion panics
    when [s] is nil or no string. *)
Definition ShortestString (src : list string) : result (string * option error) :=
  r <- shortest (stringSlice src) ;;
  match fst r with
  | Box Tstring (Vstring s) => Ok (s, snd r)
  | _ => Panicked "interface conversion: interface {} is not string"
  end.

(** ** Package [dir]: [Glob], the caller of [slice.Remove] *)

Section Dir.

(** What [Glob] is written against: compiled regular expressions with
    [MatchString], which panics on a nil [*regexp.Regexp];
    [filepath.Join]; [extglob.Expand] (on the bytes of its argument), of a
    package outside the repository; and [Ls(base, true, true)] of this
    package, which reads the file system and is taken here by what a call
    of it comes to: the paths found and an error, or a panic (it calls
    [i.Mode()] on what [f.Stat()] gave after an [os.Open] that failed). *)
Variable Regexp : Type.
Variable MatchString : Regexp -> string -> result bool.
Variable oserror : Type.
Variable Join : string -> string -> string.
Variable Expand : string -> list string * option oserror.
Variable LsAll : string -> result (list string * option oserror).

(** The dynamic type of [patt] and of each of [opts] as far as [Glob]
    tells them apart. *)
Inductive globarg : Type :=
| GString (s : string)
| GRegexp (r : Regexp)
| GOther.

Inductive globerror : Type :=
| ErrOpts
| ErrOS (e : oserror)
| ErrSlice (e : error).

(** The contents of a [[]string] variable. *)
Definition stringsOf (v : val) : list string :=
  flat_map (fun d => match d with Vstring s => [s] | _ => [] end) (elems v).

(** The loop of the regular-expression branch: a path is kept when the
    pattern matches it and the exclusion, if [opts[1]] is one, does not. *)
Fixpoint globMatches (val : Regexp) (excl : option Regexp)
                     (matches files : list string) {struct matches}
  : result (list string) :=
  match matches with
  | [] => Ok files
  | v :: rest =>
      ok <- MatchString val v ;;
      if ok then
        skip <- match excl with
                | Some val1 => MatchString val1 v
                | None => Ok false
                end ;;
        globMatches val excl rest (if skip then files else files ++ [v])
      else globMatches val excl rest files
  end.

Definition Glob (patt : globarg) (opts : list globarg)
  : result (list string * option globerror) :=
  if 2 <? List.length opts then Ok ([], Some ErrOpts)
  else
    let base := match opts with GString val :: _ => val | _ => "" end in
    match patt with
    | GRegexp val =>
        r <- LsAll base ;;
        match r with
        | (matches, Some err) => Ok (matches, Some (ErrOS err))
        | (matches, None) =>
            files <- globMatches val
                       (match opts with
                        | _ :: GRegexp val1 :: _ => Some val1
                        | _ => None
                        end) matches [] ;;
            Ok (files, None)
        end
    | GString val =>
        let val := if 0 <? String.length base then Join base val else val in
        match Expand val with
        | (matches, Some err) => Ok (matches, Some (ErrOS err))
        | (matches, None) =>
            match opts with
            | _ :: GString val1 :: _ =>
                match Expand (Join base val1) with
                | (_, Some err) => Ok (matches, Some (ErrOS err))
                | (m, None) =>
                    match Remove AddressOf (stringSlice m)
                                 (Tslice Tstring, Vslice (map Vstring matches)) with
                    | (Panicked msg, _) => Panicked msg
                    | (Ok (Some err), x) => Ok (stringsOf (snd x), Some (ErrSlice err))
                    | (Ok None, x) => Ok (stringsOf (snd x), None)
                    end
                end
            | _ => Ok (matches, None)
            end
        end
    | GOther => Ok ([], None)
    end.

End Dir.

(** ** Vocabulary of the statements *)

(** The indices, counted from [i], at which a mask is set: what the loops
    that fill [idx] collect. *)
Fixpoint positions (mask : list bool) (i : nat) {struct mask} : list nat :=
  match mask with
  | [] => []
  | b :: mask' => (if b then [i] else []) ++ positions mask' (S i)
  end.

(** The elements of [l] at which the mask is not set, in their order. *)
Fixpoint keep {A : Type} (mask : list bool) (l : list A) {struct mask} : list A :=
  match mask, l with
  | b :: mask', a :: l' => if b then keep mask' l' else a :: keep mask' l'
  | _, _ => []
  end.

(** [v.Interface()] for a valid [v]. *)
Definition ifaceOf (t : rtype) (v : val) : iface :=
  match t, v with
  | Tiface, Viface t' v' => Box t' v'
  | Tiface, _ => Nil
  | _, _ => Box t v
  end.

(** The type of the scalars a needle of type [t] is made of: [t] without
    its slice layers. *)
Fixpoint scalarType (t : rtype) : rtype :=
  match t with
  | Tslice e => scalarType e
  | _ => t
  end.

(** The kind [Remove] compares with the sequence's element kind. *)
Definition scalarKind (ev : Value) : Kind :=
  match ev with
  | Zero => Invalid
  | Val t _ => Type_Kind (scalarType t)
  end.

(** What a run of [Remove] on a pointer to a [[]e] holding [dx] comes to,
    for a needle made of scalars of type [t]: when the kinds agree it
    returns nil, when they do not the variable is never written. *)
Definition allOrNothing (t e : rtype) (dx : val)
           (run : variable -> result (option error) * variable) : Prop :=
  if Kind_eqb (Type_Kind e) (Type_Kind (scalarType t))
  then exists dx', run (Tslice e, dx) = (Ok None, (Tslice e, dx'))
  else run (Tslice e, dx) = (Ok None, (Tslice e, dx))
       \/ run (Tslice e, dx) = (Ok (Some ErrNotSameType), (Tslice e, dx)).

Section Keys.

Variable Marshal : iface -> string.

(** [genKey(v)] for a valid [v] of type [t]: the JSON text for a struct, the
    value itself otherwise. *)
Definition keyOf (t : rtype) (v : val) : iface :=
  if Kind_eqb (Type_Kind t) Struct
  then Box Tstring (Vstring (Marshal (ifaceOf t v)))
  else ifaceOf t v.

Definition keyOfValue (x : Value) : iface :=
  match x with
  | Zero => Nil
  | Val t v => keyOf t v
  end.

(** The marks [Unique] gives the keys it meets, [m] being the keys stored so
    far: set when the key has been met. *)
Fixpoint dupMask (m : keyset) (ks : list iface) {struct ks} : list bool :=
  match ks with
  | [] => []
  | k :: ks' =>
      if existsb (DeepEqual k) m then true :: dupMask m ks'
      else false :: dupMask (k :: m) ks'
  end.

(** The first occurrence of each key, in the words of the specification: an
    element stays when no element before it ([earlier] and then the ones
    passed) has its key. *)
Fixpoint firstOccurrences (key : val -> iface) (earlier l : list val) {struct l}
  : list val :=
  match l with
  | [] => []
  | d :: l' =>
      if existsb (fun p => DeepEqual (key p) (key d)) earlier
      then firstOccurrences key (d :: earlier) l'
      else d :: firstOccurrences key (d :: earlier) l'
  end.

End Keys.

(** What [Concat] has to append: the elements of a slice addend, or the
    addend itself. *)
Definition addends (dv : Value) : list Value :=
  if isSlice dv then elements dv else [dv].

(** The datum stored in an element of type [e] when a value is assigned to
    it: the value, boxed when [e] is [interface{}] and it is not. *)
Definition storedAs (e : rtype) (x : Value) : val :=
  match x with
  | Zero => Vnil
  | Val t v => if rtype_eqb t e then v else Viface t v
  end.

(** The scalars a needle of type [t] holding [d] is made of, in the order
    [Remove] reaches them. *)
Fixpoint scalars (t : rtype) (d : val) {struct d} : list iface :=
  match t with
  | Tslice e =>
      match d with
      | Vslice l | Varray l => flat_map (scalars e) l
      | _ => []
      end
  | _ => [ifaceOf t d]
  end.

(** A [[]e] holding [dx] once the elements deeply equal to one of [gone]
    are removed: left as it is when there is nothing to look for, else a
    new slice of the others. *)
Definition removed (e : rtype) (gone : list iface) (dx : val) : val :=
  match gone with
  | [] => dx
  | _ => Vslice (filter (fun di => negb (existsb (DeepEqual (ifaceOf e di)) gone))
                        (elems dx))
  end.


(** Values for the examples: [[]int{...}], an [int], and an encoder for
    sequences without an element of struct kind, which never consult it. *)
Definition ints (l : list Z) : val := Vslice (map Vint l).

Definition intSlice (l : list Z) : any := Of (Box (Tslice Tint) (ints l)).

Definition int (n : Z) : any := Of (Box Tint (Vint n)).

Definition noStructs : iface -> string := fun _ => "".

(** ** Equality tests decide equality *)

Lemma Kind_eqb_eq (a b : Kind) : Kind_eqb a b = true <-> a = b.
Proof. destruct a, b; simpl; split; congruence. Qed.

Lemma rtype_eqb_eq (a b : rtype) : rtype_eqb a b = true <-> a = b.
Proof.
  revert b.
  induction a as [ | | | | a IH | n a IH | s fs IH ]; intros b;
    destruct b as [ | | | | b | m b | s' fs' ]; simpl;
    try (split; congruence).
  - rewrite IH. split; congruence.
  - rewrite andb_true_iff, Nat.eqb_eq, IH. intuition congruence.
  - rewrite andb_true_iff, String.eqb_eq.
    assert (E : (fix all2 (l l' : list rtype) {struct l} : bool :=
                   match l, l' with
                   | [], [] => true
                   | x :: r, y :: r' => rtype_eqb x y && all2 r r'
                   | _, _ => false
                   end) fs fs' = true <-> fs = fs').
    { revert fs'. induction IH as [ | x Hx r Hr IHr ]; intros [ | y r'];
        try (split; congruence).
      rewrite andb_true_iff, Hx, IHr. intuition congruence. }
    rewrite E. intuition congruence.
Qed.

Lemma rtype_eqb_refl (a : rtype) : rtype_eqb a a = true.
Proof. now apply rtype_eqb_eq. Qed.

Lemma deepValueEqual_eq (a b : val) : deepValueEqual a b = true <-> a = b.
Proof.
  revert b.
  assert (L : forall l : list val,
             list_all val (fun a => forall b, deepValueEqual a b = true <-> a = b) l ->
             forall l',
               (fix all2 (l l' : list val) {struct l} : bool :=
                  match l, l' with
                  | [], [] => true
                  | x :: r, y :: r' => deepValueEqual x y && all2 r r'
                  | _, _ => false
                  end) l l' = true <-> l = l').
  { intros l H. induction H as [ | x Hx r Hr IHr ]; intros [ | y r'];
      try (split; congruence).
    rewrite andb_true_iff, Hx, IHr. intuition congruence. }
  induction a as [ x | x | x | | l IH | l IH | l IH | t a IH ]; intros b;
    destruct b as [ y | y | y | | l' | l' | l' | t' b ]; simpl;
    try (split; congruence).
  - rewrite Bool.eqb_true_iff. split; congruence.
  - rewrite Z.eqb_eq. split; congruence.
  - rewrite String.eqb_eq. split; congruence.
  - rewrite (L l IH). split; congruence.
  - rewrite (L l IH). split; congruence.
  - rewrite (L l IH). split; congruence.
  - rewrite andb_true_iff, rtype_eqb_eq, IH. intuition congruence.
Qed.

Lemma DeepEqual_eq (x y : iface) : DeepEqual x y = true <-> x = y.
Proof.
  destruct x as [ | t v], y as [ | t' v']; simpl; try (split; congruence).
  rewrite andb_true_iff, rtype_eqb_eq, deepValueEqual_eq.
  intuition congruence.
Qed.

Lemma DeepEqual_refl (x : iface) : DeepEqual x x = true.
Proof. now apply DeepEqual_eq. Qed.

(** ** The loops visit [v.Index(0)], [v.Index(1)], ... *)

Lemma elements_Index (v x : Value) (i : nat) :
  nth_error (elements v) i = Some x -> Value_Index v i = Ok x.
Proof.
  destruct v as [ | t d]; simpl; [destruct i; discriminate|].
  destruct t; simpl; try (destruct i; discriminate);
    rewrite nth_error_map; destruct (nth_error (elems d) i); simpl; congruence.
Qed.

Lemma elements_length (t : rtype) (d : val) :
  Type_Kind t = Slice \/ Type_Kind t = Array ->
  List.length (elements (Val t d)) = Value_Len (Val t d).
Proof.
  destruct t; simpl; intros [H|H]; try discriminate; apply length_map.
Qed.

Lemma Value_Interface_Val (t : rtype) (v : val) :
  Value_Interface (Val t v) = Ok (ifaceOf t v).
Proof. destruct t; try reflexivity. destruct v; reflexivity. Qed.

(** ** The index-filtered copy *)

Lemma positions_ge (mask : list bool) (i j : nat) :
  In j (positions mask i) -> i <= j.
Proof.
  revert i. induction mask as [ | b mask IH]; simpl; intros i H; [easy|].
  apply in_app_or in H. destruct H as [H|H].
  - destruct b; simpl in H; [destruct H as [<-|[]]; lia | easy].
  - apply IH in H. lia.
Qed.

Lemma positions_length (mask : list bool) (i : nat) :
  List.length (positions mask i) + List.length (filter negb mask) = List.length mask.
Proof.
  revert i. induction mask as [ | b mask IH]; simpl; intros i; [easy|].
  rewrite length_app. specialize (IH (S i)). destruct b; simpl; lia.
Qed.

Lemma keep_map_filter {A : Type} (p : A -> bool) (l : list A) :
  keep (map p l) l = filter (fun a => negb (p a)) l.
Proof.
  induction l as [ | a l IH]; simpl; [easy|].
  destruct (p a); simpl; now rewrite IH.
Qed.

Lemma has_index (idx0 : list nat) (b : bool) (mask : list bool) (i : nat) :
  (forall j, In j idx0 -> j < i) ->
  existsb (fun j => Nat.eqb j i) (idx0 ++ positions (b :: mask) i) = b.
Proof.
  intros H0. rewrite existsb_app. simpl. rewrite existsb_app.
  assert (E0 : existsb (fun j => Nat.eqb j i) idx0 = false).
  { apply not_true_is_false. intros E. apply existsb_exists in E.
    destruct E as [j [Hj E]]. apply Nat.eqb_eq in E. apply H0 in Hj. lia. }
  assert (E1 : existsb (fun j => Nat.eqb j i) (positions mask (S i)) = false).
  { apply not_true_is_false. intros E. apply existsb_exists in E.
    destruct E as [j [Hj E]]. apply Nat.eqb_eq in E. apply positions_ge in Hj. lia. }
  rewrite E0, E1. destruct b; simpl; [now rewrite Nat.eqb_refl | easy].
Qed.

Lemma update_middle (pre post : list val) (z d : val) :
  update (pre ++ z :: post) (List.length pre) d = Some (pre ++ d :: post).
Proof. induction pre as [ | a pre IH]; simpl; [easy | now rewrite IH]. Qed.

Lemma SetIndex_next (e : rtype) (pre zs : list val) (z d : val) :
  SetIndex (Val (Tslice e) (Vslice (pre ++ z :: zs))) (List.length pre) (Val e d)
  = Ok (Val (Tslice e) (Vslice ((pre ++ [d]) ++ zs))).
Proof.
  unfold SetIndex, setElem. simpl elems.
  assert (L : (List.length pre <? List.length (pre ++ z :: zs)) = true).
  { apply Nat.ltb_lt. rewrite length_app. simpl. lia. }
  rewrite L. simpl. rewrite rtype_eqb_refl. simpl.
  rewrite update_middle. simpl. now rewrite <- app_assoc.
Qed.

Lemma removeLoop_mask (e : rtype) (rest : list val) :
  forall (mask : list bool) (idx0 : list nat) (i n : nat) (pre zs : list val),
    List.length mask = List.length rest ->
    (forall j, In j idx0 -> j < i) ->
    n <= i -> List.length pre = i - n ->
    List.length zs = List.length (filter negb mask) ->
    removeLoop (idx0 ++ positions mask i) (map (Val e) rest) i n
               (Val (Tslice e) (Vslice (pre ++ zs)))
    = Ok (Val (Tslice e) (Vslice (pre ++ keep mask rest))).
Proof.
  induction rest as [ | d rest IH]; intros mask idx0 i n pre zs Hm H0 Hn Hpre Hzs.
  - destruct mask; [|discriminate]. simpl in *.
    destruct zs; [reflexivity | discriminate].
  - destruct mask as [ | b mask]; [discriminate|]. injection Hm as Hm.
    cbn [map removeLoop]. rewrite (has_index idx0 b mask i H0).
    assert (Hidx : idx0 ++ positions (b :: mask) i
                   = (idx0 ++ (if b then [i] else [])) ++ positions mask (S i)).
    { simpl. now rewrite app_assoc. }
    assert (H0' : forall j, In j (idx0 ++ (if b then [i] else [])) -> j < S i).
    { intros j Hj. apply in_app_or in Hj. destruct Hj as [Hj|Hj].
      - apply H0 in Hj. lia.
      - destruct b; simpl in Hj; [destruct Hj as [<-|[]]; lia | easy]. }
    destruct b.
    + rewrite Hidx. simpl keep.
      apply IH; try easy; simpl in *; lia.
    + simpl in Hzs. destruct zs as [ | z zs]; [discriminate|]. injection Hzs as Hzs.
      replace (i - n) with (List.length pre) by lia.
      rewrite SetIndex_next. cbn [bind]. rewrite Hidx. simpl keep.
      replace (pre ++ d :: keep mask rest) with ((pre ++ [d]) ++ keep mask rest)
        by now rewrite <- app_assoc.
      apply IH; try easy; try lia.
      rewrite length_app. cbn [List.length]. lia.
Qed.

(** [removeFromSlice] on the indices at which a mask is set returns, without
    a panic, a new slice of the elements at which it is not. *)
Lemma removeFromSlice_mask (e : rtype) (d : val) (mask : list bool) :
  List.length mask = List.length (elems d) ->
  removeFromSlice (positions mask 0) (Val (Tslice e) d)
  = Ok (Val (Tslice e) (Vslice (keep mask (elems d)))).
Proof.
  intros Hm. unfold removeFromSlice. cbn [Value_Type bind MakeSlice Value_Len].
  pose proof (positions_length mask 0) as HL.
  assert (L : (List.length (elems d) <? List.length (positions mask 0)) = false).
  { apply Nat.ltb_ge. lia. }
  rewrite L. cbn [bind elements].
  replace (List.length (elems d) - List.length (positions mask 0))
    with (List.length (filter negb mask)) by lia.
  apply (removeLoop_mask e (elems d) mask [] 0 0 [] (repeat (zero e) _));
    try easy.
  now rewrite repeat_length.
Qed.

(** ** Remove *)

Lemma removeIndices_mask (e : rtype) (ev : Value) (b : iface) (l : list val) :
  Value_Interface ev = Ok b ->
  forall i idx,
    removeIndices ev (map (Val e) l) i idx
    = Ok (idx ++ positions (map (fun d => DeepEqual (ifaceOf e d) b) l) i).
Proof.
  intros Hb. induction l as [ | d l IH]; intros i idx; cbn [map removeIndices positions].
  - now rewrite app_nil_r.
  - rewrite Value_Interface_Val, Hb. cbn [bind]. rewrite IH.
    destruct (DeepEqual (ifaceOf e d) b); simpl; [now rewrite <- app_assoc | easy].
Qed.

Lemma commit_slice (e : rtype) (d : val) (l : list val) :
  commit (Tslice e, d) (Ok (Val (Tslice e) (Vslice l)))
  = (Ok None, (Tslice e, Vslice l)).
Proof. unfold commit, Value_Set. simpl. now rewrite rtype_eqb_refl. Qed.

(** The scalar branch when the kinds agree: the elements deeply equal to the
    needle are dropped, the others stay in their order. *)
Lemma removeElement_same_kind (e t : rtype) (d v : val) :
  Kind_eqb (Type_Kind e) (Type_Kind t) = true ->
  removeElement (Val (Tslice e) d) (Val t v) (Tslice e, d)
  = (Ok None,
     (Tslice e,
      Vslice (filter (fun di => negb (DeepEqual (ifaceOf e di) (ifaceOf t v)))
                     (elems d)))).
Proof.
  intros K. unfold removeElement. cbn [Value_Type bind Type_Elem Value_Kind].
  rewrite K. cbn [elements].
  rewrite (removeIndices_mask e (Val t v) (ifaceOf t v) (elems d)
             (Value_Interface_Val t v) 0 []).
  cbn [bind app]. rewrite removeFromSlice_mask by now rewrite length_map.
  rewrite keep_map_filter. apply commit_slice.
Qed.

Lemma removeElement_other_kind (e : rtype) (d : val) (ev : Value) (x : variable) :
  Kind_eqb (Type_Kind e) (Value_Kind ev) = false ->
  removeElement (Val (Tslice e) d) ev x = (Ok (Some ErrNotSameType), x).
Proof.
  intros K. unfold removeElement. cbn [Value_Type bind Type_Elem]. now rewrite K.
Qed.

Lemma RemoveValue_unfold (src : source) (t : rtype) (d : val) (x : variable) :
  RemoveValue src t d x =
  match deref src x with
  | None => (Ok (Some ErrNotPointer), x)
  | Some sv =>
      if negb (isSlice sv) then (Ok (Some ErrNotSlice), x)
      else
        match t with
        | Tslice e => removeEach (RemoveValue src e) (elems d) x
        | _ => removeElement sv (Val t d) x
        end
  end.
Proof. destruct d; simpl; destruct (deref src x); try reflexivity;
         destruct (negb (isSlice v)); try reflexivity; destruct t; reflexivity.
Qed.

Lemma scalarType_not_slice (t : rtype) : Type_Kind (scalarType t) <> Slice.
Proof. induction t; simpl; congruence. Qed.

(** Every scalar a needle is made of has the same kind, so the calls on
    them all pass the kind test or all fail it: either every one succeeds,
    or the variable is never written. *)
Lemma removeElement_allOrNothing (t e : rtype) (d dx : val) :
  Type_Kind t <> Slice ->
  allOrNothing t e dx (RemoveValue AddressOf t d).
Proof.
  intros Ht. unfold allOrNothing. rewrite RemoveValue_unfold.
  cbn [deref fst snd isSlice Value_Kind Type_Kind Kind_eqb negb].
  assert (S : scalarType t = t) by (destruct t; try reflexivity; now contradiction Ht).
  rewrite S. destruct (Kind_eqb (Type_Kind e) (Type_Kind t)) eqn:K.
  - eexists. destruct t; try (apply removeElement_same_kind; exact K).
    now contradiction Ht.
  - right. destruct t; try (apply removeElement_other_kind; exact K).
    now contradiction Ht.
Qed.

Lemma removeEach_allOrNothing (t e : rtype) (l : list val) :
  list_all val (fun d => forall t e dx,
                  allOrNothing t e dx (RemoveValue AddressOf t d)) l ->
  forall dx, allOrNothing t e dx (removeEach (RemoveValue AddressOf t) l).
Proof.
  intros H. induction H as [ | d Hd l Hl IH]; intros dx.
  - unfold allOrNothing. cbn [removeEach].
    destruct (Kind_eqb (Type_Kind e) (Type_Kind (scalarType t))); eauto.
  - specialize (Hd t e dx). unfold allOrNothing in *. cbn [removeEach].
    destruct (Kind_eqb (Type_Kind e) (Type_Kind (scalarType t))).
    + destruct Hd as [dx' ->]. apply IH.
    + destruct Hd as [-> | ->]; [apply IH | now right].
Qed.

Lemma RemoveValue_cases (d : val) :
  forall (t e : rtype) (dx : val),
    allOrNothing t e dx (RemoveValue AddressOf t d).
Proof.
  induction d as [ b | n | s | | l IH | l IH | l IH | t' d IH ]; intros t e dx;
    (destruct (Kind_eqb (Type_Kind t) Slice) eqn:Kt;
     [ apply Kind_eqb_eq in Kt; destruct t as [ | | | | t0 | | ]; try discriminate
     | apply removeElement_allOrNothing; intros Kt';
       rewrite Kt' in Kt; discriminate ]).
  all: try (pose proof (removeEach_allOrNothing t0 e l IH dx) as R;
            unfold allOrNothing in *; rewrite RemoveValue_unfold;
            cbn [deref fst snd isSlice Value_Kind Type_Kind Kind_eqb negb elems scalarType];
            exact R).
  all: unfold allOrNothing; rewrite RemoveValue_unfold;
    cbn [deref fst snd isSlice Value_Kind Type_Kind Kind_eqb negb elems scalarType removeEach];
    destruct (Kind_eqb (Type_Kind e) (Type_Kind (scalarType t0))); eauto.
Qed.

Lemma Type_Kind_valid (t : rtype) : Type_Kind t <> Invalid.
Proof. destruct t; discriminate. Qed.

Lemma Kind_eqb_false (a b : Kind) : a <> b -> Kind_eqb a b = false.
Proof.
  intros H. apply not_true_is_false. intros E. now apply Kind_eqb_eq in E.
Qed.

Lemma Remove_slice_variable (element : any) (e : rtype) (d : val) :
  Remove AddressOf element (Tslice e, d) =
  match toValue element with
  | Zero => (Ok (Some ErrNotSameType), (Tslice e, d))
  | Val t v => RemoveValue AddressOf t v (Tslice e, d)
  end.
Proof.
  unfold Remove. destruct (toValue element); [|reflexivity].
  cbn [deref fst snd isSlice Value_Kind Type_Kind Kind_eqb negb].
  apply removeElement_other_kind. apply Kind_eqb_false, Type_Kind_valid.
Qed.

Lemma Remove_not_slice (src : source) (element : any) (x : variable) (sv : Value) :
  deref src x = Some sv -> isSlice sv = false ->
  Remove src element x = (Ok (Some ErrNotSlice), x).
Proof.
  intros D S. unfold Remove. destruct (toValue element).
  - now rewrite D, S.
  - now rewrite RemoveValue_unfold, D, S.
Qed.

Lemma Remove_not_pointer (src : source) (element : any) (x : variable) :
  deref src x = None -> Remove src element x = (Ok (Some ErrNotPointer), x).
Proof.
  intros D. unfold Remove. destruct (toValue element).
  - now rewrite D.
  - now rewrite RemoveValue_unfold, D.
Qed.

(** What [Remove] does on a pointer to a slice, by the kind of the scalars
    of the needle. *)
Lemma Remove_cases (element : any) (e : rtype) (d : val) :
  (Kind_eqb (Type_Kind e) (scalarKind (toValue element)) = true ->
   exists d', Remove AddressOf element (Tslice e, d) = (Ok None, (Tslice e, d')))
  /\
  (Kind_eqb (Type_Kind e) (scalarKind (toValue element)) = false ->
   Remove AddressOf element (Tslice e, d) = (Ok None, (Tslice e, d))
   \/ Remove AddressOf element (Tslice e, d)
      = (Ok (Some ErrNotSameType), (Tslice e, d))).
Proof.
  rewrite Remove_slice_variable. destruct (toValue element) as [ | t v]; cbn [scalarKind].
  - split; intros K; [|now right].
    rewrite Kind_eqb_false in K by apply Type_Kind_valid. discriminate.
  - pose proof (RemoveValue_cases v t e d) as R. unfold allOrNothing in R.
    destruct (Kind_eqb (Type_Kind e) (Type_Kind (scalarType t)));
      split; intros K; try discriminate; exact R.
Qed.

(** [Remove] never panics, and the variable is as it was whenever an error
    is returned. *)
Lemma Remove_returns (src : source) (element : any) (x : variable) :
  exists r x', Remove src element x = (Ok r, x') /\ (r <> None -> x' = x).
Proof.
  destruct (deref src x) as [sv|] eqn:D.
  - destruct (isSlice sv) eqn:S.
    + destruct src; try discriminate.
      * injection D as <-. destruct x as [tx d]. cbn [fst snd] in S.
        destruct tx; try discriminate.
        destruct (Kind_eqb (Type_Kind tx) (scalarKind (toValue element))) eqn:K.
        -- destruct (proj1 (Remove_cases element tx d) K) as [d' E].
           exists None, (Tslice tx, d'). split; [exact E | congruence].
        -- destruct (proj2 (Remove_cases element tx d) K) as [E|E];
             rewrite E; eexists; eexists; split; reflexivity || congruence.
      * injection D as <-. discriminate.
    + rewrite (Remove_not_slice src element x sv D S).
      eexists; eexists; split; reflexivity || congruence.
  - rewrite (Remove_not_pointer src element x D).
    eexists; eexists; split; reflexivity || congruence.
Qed.

(** ** Contains *)

Lemma containsElement_spec (e : rtype) (ev : Value) (b : iface) (l : list val) :
  Value_Interface ev = Ok b ->
  containsElement ev (map (Val e) l)
  = Ok (existsb (fun d => DeepEqual (ifaceOf e d) b) l, None).
Proof.
  intros Hb. induction l as [ | d l IH]; cbn [map containsElement existsb]; [easy|].
  rewrite Value_Interface_Val, Hb. cbn [bind].
  destruct (DeepEqual (ifaceOf e d) b); [reflexivity | exact IH].
Qed.

Lemma containsAny_ext (f g : Value -> option (result (bool * option error)))
      (l : list Value) :
  (forall v, f v = g v) -> containsAny f l = containsAny g l.
Proof.
  intros H. induction l as [ | v l IH]; simpl; [easy|]. now rewrite H, IH.
Qed.

Lemma containsAny_some (f : Value -> option (result (bool * option error)))
      (l : list Value) :
  (forall v, exists r, f v = Some r) -> exists r, containsAny f l = Some r.
Proof.
  intros H. induction l as [ | v l IH]; simpl; [eauto|].
  destruct (H v) as [[[[|] [e|]]|msg] ->]; eauto.
Qed.

Lemma ContainsN_two (n : nat) (src : any) (v : Value) :
  ContainsN (S (S n)) src (OfValue v) = ContainsN 2 src (OfValue v)
  /\ exists r, ContainsN 2 src (OfValue v) = Some r.
Proof.
  cbn [ContainsN].
  destruct (negb (isSlice (ValueOf src))); [eauto|].
  destruct (Kind_eqb (Value_Kind (toValue (OfValue v))) Slice
            || Kind_eqb (Value_Kind (toValue (OfValue v))) Array).
  - split.
    + apply containsAny_ext. intros w. reflexivity.
    + apply containsAny_some. intros w. eexists. reflexivity.
  - eauto.
Qed.

(** X25: the recursion of [Contains] is at most three calls deep: more fuel
    changes nothing, and three units never run out. *)
Lemma ContainsN_fuel (n : nat) (src element : any) :
  ContainsN (3 + n) src element = Contains src element
  /\ exists r, Contains src element = Some r.
Proof.
  unfold Contains. cbn [ContainsN Nat.add].
  destruct (negb (isSlice (ValueOf src))); [eauto|].
  destruct (Kind_eqb (Value_Kind (toValue element)) Slice
            || Kind_eqb (Value_Kind (toValue element)) Array).
  - split.
    + apply containsAny_ext. intros w. apply (ContainsN_two n element w).
    + apply containsAny_some. intros w. apply (ContainsN_two 0 element w).
  - eauto.
Qed.

Lemma Contains_scalar_needle (e t : rtype) (d v : val) (needle : any) :
  toValue needle = Val t v ->
  Type_Kind t <> Slice -> Type_Kind t <> Array ->
  Contains (Of (Box (Tslice e) d)) needle
  = Some (Ok (existsb (fun di => DeepEqual (ifaceOf e di) (ifaceOf t v)) (elems d),
              None)).
Proof.
  intros E K1 K2. unfold Contains. cbn [ContainsN ValueOf isSlice Value_Kind Type_Kind Kind_eqb negb].
  rewrite E. cbn [Value_Kind].
  rewrite (Kind_eqb_false _ _ K1), (Kind_eqb_false _ _ K2). cbn [orb elements].
  now rewrite (containsElement_spec e (Val t v) (ifaceOf t v) (elems d)
                 (Value_Interface_Val t v)).
Qed.

(** A slice needle against a source whose elements are neither slices nor
    arrays: true when some element of the source is deeply equal to some
    element of the needle. *)
Lemma Contains_slice_needle (e t : rtype) (d nd : val) :
  Type_Kind e <> Slice -> Type_Kind e <> Array ->
  Contains (Of (Box (Tslice e) d)) (Of (Box (Tslice t) nd))
  = Some (Ok (existsb (fun di =>
                existsb (fun nj => DeepEqual (ifaceOf t nj) (ifaceOf e di)) (elems nd))
              (elems d), None)).
Proof.
  intros K1 K2. unfold Contains.
  cbn [ContainsN ValueOf toValue isSlice Value_Kind Type_Kind Kind_eqb negb orb elements].
  induction (elems d) as [ | di l IH]; cbn [map containsAny existsb]; [easy|].
  cbn [Value_Kind].
  rewrite (Kind_eqb_false _ _ K1), (Kind_eqb_false _ _ K2). cbn [orb].
  rewrite (containsElement_spec t (Val e di) (ifaceOf e di) (elems nd)
             (Value_Interface_Val e di)).
  destruct (existsb (fun nj => DeepEqual (ifaceOf t nj) (ifaceOf e di)) (elems nd));
    [reflexivity | exact IH].
Qed.

(** ** Keys and the key set *)

Section KeyFacts.

Variable Marshal : iface -> string.

Lemma genKey_Val (t : rtype) (v : val) :
  genKey Marshal (Val t v) = Ok (keyOf Marshal t v).
Proof.
  unfold genKey, keyOf. rewrite Value_Interface_Val. cbn [bind Value_Kind].
  now destruct (Kind_eqb (Type_Kind t) Struct).
Qed.

Lemma existsb_rev {A : Type} (p : A -> bool) (l : list A) :
  existsb p (rev l) = existsb p l.
Proof.
  induction l as [ | a l IH]; simpl; [easy|].
  rewrite existsb_app, IH. simpl. rewrite orb_false_r. apply orb_comm.
Qed.

Lemma existsb_DeepEqual_In (k : iface) (m : keyset) :
  existsb (DeepEqual k) m = true <-> In k m.
Proof.
  rewrite existsb_exists. split.
  - intros [k' [H E]]. apply DeepEqual_eq in E. now subst.
  - intros H. exists k. split; [exact H | apply DeepEqual_refl].
Qed.

(** The loop storing the keys of a sequence panics exactly when one of them
    cannot be hashed. *)
Lemma keysOf_spec (e : rtype) (l : list val) :
  forall m,
    keysOf Marshal (map (Val e) l) m =
    if forallb hashable (map (keyOf Marshal e) l)
    then Ok (rev (map (keyOf Marshal e) l) ++ m)
    else Panicked "runtime error: hash of unhashable type".
Proof.
  induction l as [ | d l IH]; intros m; cbn [map keysOf forallb]; [easy|].
  rewrite genKey_Val. cbn [bind]. unfold mapassign.
  destruct (hashable (keyOf Marshal e d)); cbn [bind andb]; [|easy].
  rewrite IH. destruct (forallb hashable (map (keyOf Marshal e) l)); [|easy].
  simpl. now rewrite <- app_assoc.
Qed.

Lemma uniqueIndices_spec (e : rtype) (l : list val) :
  forall i m idx,
    uniqueIndices Marshal (map (Val e) l) i m idx =
    if forallb hashable (map (keyOf Marshal e) l)
    then Ok (idx ++ positions (dupMask m (map (keyOf Marshal e) l)) i)
    else Panicked "runtime error: hash of unhashable type".
Proof.
  induction l as [ | d l IH]; intros i m idx;
    cbn [map uniqueIndices forallb dupMask positions].
  - now rewrite app_nil_r.
  - rewrite genKey_Val. cbn [bind]. unfold mapaccess, mapassign.
    destruct (hashable (keyOf Marshal e d)); cbn [bind andb]; [|easy].
    destruct (existsb (DeepEqual (keyOf Marshal e d)) m); cbn [bind];
      rewrite IH; destruct (forallb hashable (map (keyOf Marshal e) l)); try easy;
      cbn [positions app]; now rewrite <- ?app_assoc.
Qed.

Lemma intersectIndices_spec (e : rtype) (m : keyset) (l : list val) :
  forall j idx,
    intersectIndices Marshal m (map (Val e) l) j idx =
    if forallb hashable (map (keyOf Marshal e) l)
    then Ok (idx ++ positions
                      (map (fun d => negb (existsb (DeepEqual (keyOf Marshal e d)) m)) l) j)
    else Panicked "runtime error: hash of unhashable type".
Proof.
  induction l as [ | d l IH]; intros j idx;
    cbn [map intersectIndices forallb positions].
  - now rewrite app_nil_r.
  - rewrite genKey_Val. cbn [bind]. unfold mapaccess.
    destruct (hashable (keyOf Marshal e d)); cbn [bind andb]; [|easy].
    rewrite IH. destruct (forallb hashable (map (keyOf Marshal e) l)); [|easy].
    destruct (existsb (DeepEqual (keyOf Marshal e d)) m); cbn [negb app];
      now rewrite <- ?app_assoc.
Qed.

(** ** Unique *)

Lemma dupMask_length (m : keyset) (ks : list iface) :
  List.length (dupMask m ks) = List.length ks.
Proof.
  revert m. induction ks as [ | k ks IH]; intros m; simpl; [easy|].
  destruct (existsb (DeepEqual k) m); simpl; now rewrite IH.
Qed.

Lemma keep_map {A B : Type} (f : A -> B) (mask : list bool) (l : list A) :
  keep mask (map f l) = map f (keep mask l).
Proof.
  revert l. induction mask as [ | b mask IH]; intros [ | a l]; simpl; try easy.
  destruct b; simpl; now rewrite IH.
Qed.

Lemma keep_forallb {A : Type} (p : A -> bool) (mask : list bool) (l : list A) :
  forallb p l = true -> forallb p (keep mask l) = true.
Proof.
  revert l. induction mask as [ | b mask IH]; intros [ | a l]; simpl; try easy.
  rewrite andb_true_iff. intros [Ha Hl].
  destruct b; simpl; [now apply IH | rewrite Ha; now apply IH].
Qed.

(** Scanning the kept elements again marks none of them. *)
Lemma keep_twice {A : Type} (key : A -> iface) (l : list A) (m : keyset) :
  keep (dupMask m (map key (keep (dupMask m (map key l)) l)))
       (keep (dupMask m (map key l)) l)
  = keep (dupMask m (map key l)) l.
Proof.
  revert m. induction l as [ | a l IH]; intros m; simpl; [easy|].
  destruct (existsb (DeepEqual (key a)) m) eqn:E; simpl.
  - apply IH.
  - rewrite E. simpl. now rewrite IH.
Qed.

(** The marks of the code are those of the specification's words, as long
    as the key set holds the keys of the elements passed. *)
Lemma keep_firstOccurrences (key : val -> iface) (l : list val) :
  forall (m : keyset) (earlier : list val),
    (forall k, existsb (DeepEqual k) m
               = existsb (fun p => DeepEqual (key p) k) earlier) ->
    keep (dupMask m (map key l)) l = firstOccurrences key earlier l.
Proof.
  induction l as [ | d l IH]; intros m earlier Inv; simpl; [easy|].
  rewrite Inv. destruct (existsb (fun p => DeepEqual (key p) (key d)) earlier) eqn:E.
  - apply IH. intros k. simpl. rewrite Inv.
    destruct (DeepEqual (key d) k) eqn:Ek; [|easy].
    apply DeepEqual_eq in Ek. subst k. now rewrite E.
  - cbn [keep]. f_equal. apply IH. intros k. simpl. rewrite Inv. f_equal.
    destruct (DeepEqual k (key d)) eqn:E1, (DeepEqual (key d) k) eqn:E2; try easy.
    + apply DeepEqual_eq in E1. subst k. now rewrite DeepEqual_refl in E2.
    + apply DeepEqual_eq in E2. subst k. now rewrite DeepEqual_refl in E1.
Qed.

(** [Unique] on a pointer to a slice: a panic when a key cannot be hashed,
    else the elements unmarked by the scan. *)
Lemma Unique_slice (e : rtype) (d : val) :
  Unique Marshal AddressOf (Tslice e, d) =
  if forallb hashable (map (keyOf Marshal e) (elems d))
  then (Ok None,
        (Tslice e,
         Vslice (keep (dupMask [] (map (keyOf Marshal e) (elems d))) (elems d))))
  else (Panicked "runtime error: hash of unhashable type", (Tslice e, d)).
Proof.
  unfold Unique. cbn [deref fst snd isSlice Value_Kind Type_Kind Kind_eqb negb elements].
  rewrite uniqueIndices_spec.
  destruct (forallb hashable (map (keyOf Marshal e) (elems d))); [|reflexivity].
  cbn [bind app]. rewrite removeFromSlice_mask.
  - apply commit_slice.
  - now rewrite dupMask_length, length_map.
Qed.

Lemma firstOccurrences_keys (key : val -> iface) (l : list val) :
  forall earlier,
    NoDup (map key (firstOccurrences key earlier l))
    /\ (forall d, In d (firstOccurrences key earlier l) ->
                  In d l /\ ~ In (key d) (map key earlier))
    /\ (forall d, In d l ->
                  In (key d) (map key earlier)
                  \/ In (key d) (map key (firstOccurrences key earlier l))).
Proof.
  assert (Mem : forall earlier d,
             existsb (fun p => DeepEqual (key p) (key d)) earlier = true
             <-> In (key d) (map key earlier)).
  { intros earlier d. rewrite existsb_exists, in_map_iff. split.
    - intros [p [H E]]. apply DeepEqual_eq in E. eauto.
    - intros [p [E H]]. exists p. split; [easy|]. now apply DeepEqual_eq. }
  induction l as [ | a l IH]; intros earlier; simpl.
  - split; [constructor|]. split; [intros d []|intros d []].
  - destruct (IH (a :: earlier)) as [ND [Sub Cov]]. simpl in Sub, Cov.
    destruct (existsb (fun p => DeepEqual (key p) (key a)) earlier) eqn:E.
    + apply Mem in E. split; [exact ND|]. split.
      * intros d Hd. destruct (Sub d Hd) as [Hl Hn]. split; [now right|].
        intros Hk. apply Hn. now right.
      * intros d [<-|Hd]; [now left|].
        destruct (Cov d Hd) as [[Ha|Hk]|Hk];
          [left; now rewrite <- Ha | now left | now right].
    + assert (NE : ~ In (key a) (map key earlier)).
      { intros Hk. apply Mem in Hk. congruence. }
      simpl. split; [|split].
      * constructor; [|exact ND]. intros Hk. apply in_map_iff in Hk.
        destruct Hk as [p [Ep Hp]]. apply Sub in Hp. destruct Hp as [_ Hp].
        apply Hp. left. now symmetry.
      * intros d [<-|Hd]; [split; [now left | exact NE]|].
        destruct (Sub d Hd) as [Hl Hn]. split; [now right|].
        intros Hk. apply Hn. now right.
      * intros d [<-|Hd]; [right; now left|].
        destruct (Cov d Hd) as [[Ha|Hk]|Hk];
          [right; left; exact Ha | now left | right; now right].
Qed.

(** ** Intersect *)

Lemma isSlice_ValueOf (a : any) :
  isSlice (ValueOf a) = true -> exists t d, a = Of (Box (Tslice t) d).
Proof.
  destruct a as [[ | t d] | v]; try discriminate.
  destruct t; try discriminate. eauto.
Qed.

(** [Intersect] on a pointer to a slice and a slice: a panic when a key of
    either cannot be hashed, else the elements whose key is a key of the
    second slice. *)
Lemma Intersect_slices (e t : rtype) (d nd : val) :
  Intersect Marshal AddressOf (Of (Box (Tslice t) nd)) (Tslice e, d) =
  if forallb hashable (map (keyOf Marshal t) (elems nd))
     && forallb hashable (map (keyOf Marshal e) (elems d))
  then (Ok None,
        (Tslice e,
         Vslice (filter (fun di => existsb (DeepEqual (keyOf Marshal e di))
                                           (map (keyOf Marshal t) (elems nd)))
                        (elems d))))
  else (Panicked "runtime error: hash of unhashable type", (Tslice e, d)).
Proof.
  unfold Intersect.
  cbn [deref fst snd ValueOf forallb isSlice Value_Kind Type_Kind Kind_eqb negb andb elements].
  rewrite keysOf_spec.
  destruct (forallb hashable (map (keyOf Marshal t) (elems nd))); [|reflexivity].
  cbn [bind andb]. rewrite intersectIndices_spec.
  destruct (forallb hashable (map (keyOf Marshal e) (elems d))); [|reflexivity].
  cbn [bind app]. rewrite removeFromSlice_mask by now rewrite length_map.
  rewrite keep_map_filter, commit_slice. do 3 f_equal.
  apply filter_ext. intros di.
  now rewrite negb_involutive, app_nil_r, existsb_rev.
Qed.

(** ** Concat *)

Lemma assignTo_storedAs (x : Value) (e : rtype) (a : val) :
  assignTo x e = Ok a -> a = storedAs e x.
Proof.
  destruct x as [ | t v]; simpl; [discriminate|].
  destruct (rtype_eqb t e); [congruence|]. destruct e; congruence.
Qed.

Lemma appendNew_slice (m : keyset) (v : Value) (e : rtype) (dx : val)
      (r : unit) (x' : variable) :
  appendNew Marshal m v (Tslice e, dx) = (Ok r, x') ->
  fst x' = Tslice e
  /\ elems (snd x')
     = elems dx ++ (if existsb (DeepEqual (keyOfValue Marshal v)) m
                    then [] else [storedAs e v]).
Proof.
  unfold appendNew. destruct v as [ | t nj]; [discriminate|].
  rewrite genKey_Val. cbn [bind keyOfValue]. unfold mapaccess.
  destruct (hashable (keyOf Marshal t nj)); [|discriminate].
  destruct (existsb (DeepEqual (keyOf Marshal t nj)) m).
  - intros H. injection H as _ <-. simpl. now rewrite app_nil_r.
  - cbn [fst snd Append]. destruct (assignTo (Val t nj) e) as [a|msg] eqn:A;
      cbn [bind]; [|discriminate].
    unfold Value_Set. cbn [fst assignTo]. rewrite rtype_eqb_refl. cbn [bind].
    intros H. injection H as _ <-. cbn [fst snd elems].
    now rewrite (assignTo_storedAs _ _ _ A).
Qed.

Lemma concatLoop_appends (m : keyset) (l : list Value) :
  forall (e : rtype) (dx : val) (r : option error) (x' : variable),
    concatLoop Marshal m l (Tslice e, dx) = (Ok r, x') ->
    r = None
    /\ fst x' = Tslice e
    /\ elems (snd x')
       = elems dx
         ++ map (storedAs e)
                (filter (fun v => negb (existsb (DeepEqual (keyOfValue Marshal v)) m)) l).
Proof.
  induction l as [ | v l IH]; intros e dx r x'; cbn [concatLoop filter].
  - intros H. injection H as <- <-. simpl. now rewrite app_nil_r.
  - destruct (appendNew Marshal m v (Tslice e, dx)) as [[u|msg] [tx d1]] eqn:A;
      [|discriminate].
    apply appendNew_slice in A. cbn [fst snd] in A. destruct A as [-> A].
    intros H. apply IH in H. destruct H as [-> [H1 H2]].
    split; [easy|]. split; [easy|]. rewrite H2, A.
    destruct (existsb (DeepEqual (keyOfValue Marshal v)) m); cbn [negb map];
      now rewrite <- app_assoc.
Qed.

(** ** An error returned leaves the variable as it was *)

Lemma commit_cases (x : variable) (tmp : result Value) :
  (exists x', commit x tmp = (Ok None, x'))
  \/ (exists msg, commit x tmp = (Panicked msg, x)).
Proof.
  unfold commit. destruct (tmp0 <- tmp ;; Value_Set x tmp0); eauto.
Qed.

Lemma replaceLoop_cases (ov nv : Value) (n : nat) :
  forall i x,
    (exists x', replaceLoop ov nv n i x = (Ok None, x'))
    \/ (exists msg x', replaceLoop ov nv n i x = (Panicked msg, x')).
Proof.
  induction n as [ | n IH]; intros i x; cbn [replaceLoop]; [eauto|].
  destruct (vi <- Value_Index (Val (fst x) (snd x)) i ;;
            a <- Value_Interface vi ;; b <- Value_Interface ov ;;
            Ok (DeepEqual a b)) as [[|]|msg]; eauto.
  destruct (setElem (fst x) (snd x) i nv); eauto.
Qed.

Lemma concatLoop_cases (m : keyset) (l : list Value) :
  forall x,
    (exists x', concatLoop Marshal m l x = (Ok None, x'))
    \/ (exists msg x', concatLoop Marshal m l x = (Panicked msg, x')).
Proof.
  induction l as [ | v l IH]; intros x; cbn [concatLoop]; [eauto|].
  destruct (appendNew Marshal m v x) as [[u|msg] x1]; eauto.
Qed.

Lemma Unique_error (src : source) (x x' : variable) (e : error) :
  Unique Marshal src x = (Ok (Some e), x') -> x' = x.
Proof.
  unfold Unique. destruct (deref src x) as [sv|]; [|congruence].
  destruct (negb (isSlice sv)); [congruence|].
  match goal with |- commit ?y ?t = _ -> _ =>
    destruct (commit_cases y t) as [[x1 ->]|[msg ->]] end; congruence.
Qed.

Lemma Intersect_error (src : source) (dst : any) (x x' : variable) (e : error) :
  Intersect Marshal src dst x = (Ok (Some e), x') -> x' = x.
Proof.
  unfold Intersect. destruct (deref src x) as [sv|]; [|congruence].
  destruct (negb (forallb isSlice [sv; ValueOf dst])); [congruence|].
  match goal with |- commit ?y ?t = _ -> _ =>
    destruct (commit_cases y t) as [[x1 ->]|[msg ->]] end; congruence.
Qed.

Lemma Concat_error (src : source) (dst : any) (x x' : variable) (e : error) :
  Concat Marshal src dst x = (Ok (Some e), x') -> x' = x.
Proof.
  unfold Concat. destruct (deref src x) as [sv|]; [|congruence].
  destruct (negb (isSlice sv)); [congruence|].
  destruct (keysOf Marshal (elements sv) []) as [m|msg]; [|congruence].
  destruct (Kind_eqb (Value_Kind (ValueOf dst)) Slice).
  - destruct (concatLoop_cases m (elements (ValueOf dst)) x)
      as [[x1 ->]|[msg [x1 ->]]]; congruence.
  - destruct (t <- Value_Type sv ;; Type_Elem t) as [te|msg]; [|congruence].
    destruct (Kind_eqb (Type_Kind te) (Value_Kind (ValueOf dst))); [|congruence].
    destruct (appendNew Marshal m (ValueOf dst) x) as [[u|msg] x1]; congruence.
Qed.

Lemma Replace_error (src : source) (old new : any) (x x' : variable) (e : error) :
  Replace src old new x = (Ok (Some e), x') -> x' = x.
Proof.
  unfold Replace. destruct (deref src x) as [sv|]; [|congruence].
  destruct (t <- Value_Type sv ;; Type_Elem t) as [te|msg]; [|congruence].
  destruct (negb (Kind_eqb (Type_Kind te) (Value_Kind (ValueOf new)))); [congruence|].
  destruct (replaceLoop_cases (toValue old) (ValueOf new) (Value_Len sv) 0 x)
    as [[x1 ->]|[msg [x1 ->]]]; congruence.
Qed.

Lemma Remove_error (src : source) (element : any) (x x' : variable) (e : error) :
  Remove src element x = (Ok (Some e), x') -> x' = x.
Proof.
  destruct (Remove_returns src element x) as [r [x1 [E U]]].
  rewrite E. intros H. injection H as -> <-. apply U. discriminate.
Qed.

End KeyFacts.

(** ** The statements of the specification *)

Section Claims.

Variable Marshal : iface -> string.

(** C1, as the code has it: when [Concat(&dst, addend)] returns nil, what is
    appended to [dst] is, in the addend's order, every addend value (each
    element of a slice addend, or the single addend) whose key is not a key
    of [dst]'s prior contents -- as often as it occurs in the addend, the
    key set not being extended while appending. *)
Theorem Concat_appends_absent_keys (addend : any) (e : rtype) (d : val)
        (x' : variable) :
  Concat Marshal AddressOf addend (Tslice e, d) = (Ok None, x') ->
  let prior := map (keyOf Marshal e) (elems d) in
  let new := filter (fun v => negb (existsb (DeepEqual (keyOfValue Marshal v)) prior))
                    (addends (ValueOf addend)) in
  fst x' = Tslice e
  /\ elems (snd x') = elems d ++ map (storedAs e) new
  /\ Forall (fun v => ~ In (keyOfValue Marshal v) prior) new.
Proof.
  intros H prior new.
  assert (F : Forall (fun v => ~ In (keyOfValue Marshal v) prior) new).
  { apply Forall_forall. intros v Hv. apply filter_In in Hv. destruct Hv as [_ Hv].
    intros Hin. apply existsb_DeepEqual_In in Hin. rewrite Hin in Hv. discriminate. }
  revert H. unfold Concat.
  cbn [deref fst snd isSlice Value_Kind Type_Kind Kind_eqb negb elements Value_Type bind Type_Elem].
  rewrite keysOf_spec.
  destruct (forallb hashable (map (keyOf Marshal e) (elems d))); [|discriminate].
  rewrite app_nil_r.
  assert (N : new = filter (fun v => negb (existsb (DeepEqual (keyOfValue Marshal v))
                                             (rev (map (keyOf Marshal e) (elems d)))))
                           (addends (ValueOf addend))).
  { apply filter_ext. intros v. now rewrite existsb_rev. }
  clearbody new. unfold addends, isSlice in N.
  destruct (Kind_eqb (Value_Kind (ValueOf addend)) Slice).
  - intros H. apply concatLoop_appends in H. destruct H as [_ [H1 H2]].
    rewrite <- N in H2. auto.
  - destruct (Kind_eqb (Type_Kind e) (Value_Kind (ValueOf addend))); [|discriminate].
    destruct (appendNew Marshal _ (ValueOf addend) (Tslice e, d)) as [[u|msg] x1] eqn:A;
      [|discriminate].
    intros H. injection H as <-. apply appendNew_slice in A. destruct A as [A1 A2].
    cbn [filter] in N.
    destruct (existsb (DeepEqual (keyOfValue Marshal (ValueOf addend)))
                      (rev (map (keyOf Marshal e) (elems d))));
      cbn [negb] in N; subst new; auto.
Qed.

(** C6, as the code has it: on a sequence [s] all of whose keys can be
    hashed, [Unique(&s)] returns nil and [s] holds the first occurrence of
    each key, in the order of [s]: the keys of what is kept are pairwise
    distinct and every key of [s] is among them; a second [Unique] returns
    nil and leaves that sequence as it is. *)
Theorem Unique_idempotent_first_occurrences (e : rtype) (d : val) :
  forallb hashable (map (keyOf Marshal e) (elems d)) = true ->
  let kept := firstOccurrences (keyOf Marshal e) [] (elems d) in
  Unique Marshal AddressOf (Tslice e, d) = (Ok None, (Tslice e, Vslice kept))
  /\ Unique Marshal AddressOf (Tslice e, Vslice kept)
     = (Ok None, (Tslice e, Vslice kept))
  /\ NoDup (map (keyOf Marshal e) kept)
  /\ (forall di, In di (elems d) ->
                 In (keyOf Marshal e di) (map (keyOf Marshal e) kept)).
Proof.
  intros Hh kept.
  assert (K : keep (dupMask [] (map (keyOf Marshal e) (elems d))) (elems d) = kept).
  { apply keep_firstOccurrences. reflexivity. }
  destruct (firstOccurrences_keys (keyOf Marshal e) (elems d) []) as [ND [_ Cov]].
  assert (U1 : Unique Marshal AddressOf (Tslice e, d)
               = (Ok None, (Tslice e, Vslice kept))).
  { now rewrite Unique_slice, Hh, K. }
  split; [exact U1|]. split; [|split].
  - rewrite <- K at 1. rewrite Unique_slice. cbn [elems].
    rewrite <- keep_map, (keep_forallb _ _ _ Hh), keep_map.
    now rewrite keep_twice, K.
  - exact ND.
  - intros di Hd. destruct (Cov di Hd) as [[]|Hk]. exact Hk.
Qed.

(** C9: when [Intersect(&s, t)] returns nil, [s] and [t] are sequences and
    [s] holds, in their order, exactly the elements it held whose key is a
    key of [t] -- each as often as it occurred -- so it is no longer than
    before.  ([t] is passed by value and the only store written is the
    variable behind [&s].) *)
Theorem Intersect_keeps_common_keys (src : source) (dst : any) (x x' : variable) :
  Intersect Marshal src dst x = (Ok None, x') ->
  exists e d t nd,
    src = AddressOf /\ x = (Tslice e, d) /\ dst = Of (Box (Tslice t) nd)
    /\ let keys := map (keyOf Marshal t) (elems nd) in
       let kept := filter (fun di => existsb (DeepEqual (keyOf Marshal e di)) keys)
                          (elems d) in
       x' = (Tslice e, Vslice kept)
       /\ Forall (fun di => In (keyOf Marshal e di) keys) kept
       /\ (forall di, In di (elems d) -> In (keyOf Marshal e di) keys -> In di kept)
       /\ List.length kept <= List.length (elems d).
Proof.
  intros H.
  assert (S : src = AddressOf /\ isSlice (Val (fst x) (snd x)) = true
              /\ isSlice (ValueOf dst) = true).
  { revert H. unfold Intersect. destruct src; cbn [deref forallb];
      try discriminate.
    destruct (isSlice (Val (fst x) (snd x))); [|discriminate].
    destruct (isSlice (ValueOf dst)); [|discriminate]. auto. }
  destruct S as [-> [Sx Sd]].
  destruct x as [tx d]. cbn [fst snd isSlice Value_Kind] in Sx.
  destruct tx as [ | | | | e | | ]; try discriminate.
  destruct (isSlice_ValueOf dst Sd) as [t [nd ->]].
  exists e, d, t, nd. repeat (split; [reflexivity|]).
  rewrite Intersect_slices in H.
  destruct (forallb hashable (map (keyOf Marshal t) (elems nd))
            && forallb hashable (map (keyOf Marshal e) (elems d))); [|discriminate].
  injection H as <-. intros keys kept. split; [reflexivity|]. split; [|split].
  - apply Forall_forall. intros di Hd. apply filter_In in Hd.
    now apply existsb_DeepEqual_In.
  - intros di Hd Hk. apply filter_In. split; [exact Hd|].
    now apply existsb_DeepEqual_In.
  - apply filter_length_le.
Qed.

End Claims.

(** C7: when [Remove(&s, v)] returns nil for a [v] that is neither slice nor
    array, [s] holds, in their order, the elements it held that are not
    deeply equal to [v]; [Contains] on it returns false with no error, and
    its length is the former length less the number of elements equal to
    [v]. *)
Theorem Remove_scalar (e t : rtype) (d v : val) (needle : any) (x' : variable) :
  toValue needle = Val t v ->
  Type_Kind t <> Slice -> Type_Kind t <> Array ->
  Remove AddressOf needle (Tslice e, d) = (Ok None, x') ->
  let same := fun di => DeepEqual (ifaceOf e di) (ifaceOf t v) in
  Type_Kind e = Type_Kind t
  /\ x' = (Tslice e, Vslice (filter (fun di => negb (same di)) (elems d)))
  /\ Contains (Of (Box (fst x') (snd x'))) needle = Some (Ok (false, None))
  /\ List.length (elems (snd x'))
     = List.length (elems d) - List.length (filter same (elems d)).
Proof.
  intros E K1 K2 H same. rewrite Remove_slice_variable, E, RemoveValue_unfold in H.
  cbn [deref fst snd isSlice Value_Kind Type_Kind Kind_eqb negb] in H.
  assert (R : removeElement (Val (Tslice e) d) (Val t v) (Tslice e, d) = (Ok None, x')).
  { destruct t; try exact H. now contradiction K1. }
  clear H. destruct (Kind_eqb (Type_Kind e) (Type_Kind t)) eqn:K.
  - rewrite (removeElement_same_kind e t d v K) in R. injection R as <-.
    split; [now apply Kind_eqb_eq|]. split; [reflexivity|]. cbn [fst snd elems]. split.
    + rewrite (Contains_scalar_needle e t _ v needle E K1 K2). cbn [elems].
      do 3 f_equal. apply not_true_is_false. intros Hx.
      apply existsb_exists in Hx. destruct Hx as [di [Hin Hs]].
      apply filter_In in Hin. destruct Hin as [_ Hn].
      unfold same in Hn. rewrite Hs in Hn. discriminate.
    + pose proof (filter_length same (elems d)) as L. unfold same in L. cbv beta in L.
      unfold same. lia.
  - rewrite (removeElement_other_kind e d (Val t v) _ K) in R. discriminate.
Qed.

(** C8: [Remove] returns NotAPointer exactly when [src] is no pointer;
    NotASequence when what the pointer refers to is no slice; for a needle
    that is no slice, TypeMismatch exactly when its kind differs from the
    sequence's element kind.  The kind compared is always that of a scalar
    -- a slice needle is never rejected for being a slice -- and a call
    that returns an error leaves the variable as it was. *)
Theorem Remove_errors (src : source) (element : any) (x : variable) :
  (fst (Remove src element x) = Ok (Some ErrNotPointer)
   <-> exists a, src = NotPointer a)
  /\ (forall sv, deref src x = Some sv -> isSlice sv = false ->
                 Remove src element x = (Ok (Some ErrNotSlice), x))
  /\ (forall e, src = AddressOf -> fst x = Tslice e ->
                isSlice (toValue element) = false ->
                (Remove src element x = (Ok (Some ErrNotSameType), x)
                 <-> Type_Kind e <> Value_Kind (toValue element)))
  /\ (forall e, src = AddressOf -> fst x = Tslice e ->
                fst (Remove src element x) = Ok (Some ErrNotSameType) ->
                Type_Kind e <> scalarKind (toValue element)
                /\ scalarKind (toValue element) <> Slice)
  /\ (forall err x', Remove src element x = (Ok (Some err), x') -> x' = x).
Proof.
  split; [|split; [|split; [|split]]].
  - split.
    + intros H. destruct src as [ | | a]; [| |eauto]; exfalso.
      * destruct x as [tx d]. destruct (isSlice (Val tx d)) eqn:S.
        -- cbn [isSlice Value_Kind] in S. destruct tx; try discriminate.
           destruct (Kind_eqb (Type_Kind tx) (scalarKind (toValue element))) eqn:K.
           ++ destruct (proj1 (Remove_cases element tx d) K) as [d' E].
              rewrite E in H. discriminate.
           ++ destruct (proj2 (Remove_cases element tx d) K) as [E|E];
                rewrite E in H; discriminate.
        -- rewrite (Remove_not_slice AddressOf element (tx, d) _ eq_refl S) in H.
           discriminate.
      * rewrite (Remove_not_slice NilPointer element x Zero eq_refl eq_refl) in H.
        discriminate.
    + intros [a ->]. now rewrite Remove_not_pointer.
  - intros sv D S. now apply (Remove_not_slice src element x sv).
  - intros e -> Hx S. destruct x as [tx d]. cbn [fst] in Hx. subst tx.
    rewrite Remove_slice_variable. destruct (toValue element) as [ | t v] eqn:E.
    + split; [intros _; apply Type_Kind_valid | reflexivity].
    + cbn [isSlice Value_Kind] in S. rewrite RemoveValue_unfold.
      cbn [deref fst snd isSlice Value_Kind Type_Kind Kind_eqb negb].
      assert (R : forall y,
                 match t with
                 | Tslice e0 => removeEach (RemoveValue AddressOf e0) (elems v) (Tslice e, d)
                 | _ => removeElement (Val (Tslice e) d) (Val t v) (Tslice e, d)
                 end = y
                 <-> removeElement (Val (Tslice e) d) (Val t v) (Tslice e, d) = y).
      { destruct t; try discriminate; reflexivity. }
      rewrite R. destruct (Kind_eqb (Type_Kind e) (Type_Kind t)) eqn:K.
      * rewrite (removeElement_same_kind e t d v K). apply Kind_eqb_eq in K.
        split; [discriminate | congruence].
      * rewrite (removeElement_other_kind e d (Val t v) _ K).
        split; [|reflexivity]. intros _ Hk. apply Kind_eqb_eq in Hk. congruence.
  - intros e -> Hx H. destruct x as [tx d]. cbn [fst] in Hx. subst tx.
    split.
    + intros Hk. apply Kind_eqb_eq in Hk.
      destruct (proj1 (Remove_cases element e d) Hk) as [d' E].
      rewrite E in H. discriminate.
    + destruct (toValue element); [discriminate | apply scalarType_not_slice].
  - intros err x'. apply Remove_error.
Qed.

(** C10: on a pointer to a sequence, [Remove] with a slice needle that has
    no element (empty or nil, of any element type) returns nil and leaves
    the variable exactly as it was. *)
Theorem Remove_empty_needle (needle : any) (t e : rtype) (nd d : val) :
  toValue needle = Val (Tslice t) nd ->
  elems nd = [] ->
  Remove AddressOf needle (Tslice e, d) = (Ok None, (Tslice e, d)).
Proof.
  intros E N. rewrite Remove_slice_variable, E, RemoveValue_unfold, N. reflexivity.
Qed.

(** X22: whatever any of the five mutating operations returns as an error,
    the caller's variable is then as it was before the call. *)
Theorem error_leaves_variable (Marshal : iface -> string) (src : source)
        (a b : any) (x x' : variable) (err : error) :
  (Remove src a x = (Ok (Some err), x') -> x' = x)
  /\ (Unique Marshal src x = (Ok (Some err), x') -> x' = x)
  /\ (Intersect Marshal src a x = (Ok (Some err), x') -> x' = x)
  /\ (Concat Marshal src a x = (Ok (Some err), x') -> x' = x)
  /\ (Replace src a b x = (Ok (Some err), x') -> x' = x).
Proof.
  repeat split.
  - apply Remove_error.
  - apply Unique_error.
  - apply Intersect_error.
  - apply Concat_error.
  - apply Replace_error.
Qed.

(** X23: a non-empty slice whose elements are neither slices nor arrays,
    and anything that is neither slice nor array, is returned by [Flatten]
    as it is, with a nil error. *)
Lemma Flatten_pass_through (slice : any) :
  (Value_Kind (ValueOf slice) <> Slice /\ Value_Kind (ValueOf slice) <> Array)
  \/ (exists t d, slice = Of (Box (Tslice t) d) /\ elems d <> []
                  /\ Type_Kind t <> Slice /\ Type_Kind t <> Array) ->
  Flatten slice = Ok (slice, None).
Proof.
  intros [[K1 K2] | [t [d [-> [Hd [K1 K2]]]]]]; unfold Flatten.
  - now rewrite (Kind_eqb_false _ _ K1), (Kind_eqb_false _ _ K2).
  - cbn [ValueOf Value_Kind Type_Kind Kind_eqb orb elements].
    destruct (elems d) as [ | x l]; [now contradiction Hd|].
    cbn [map flattenLength Value_Kind].
    now rewrite (Kind_eqb_false _ _ K1), (Kind_eqb_false _ _ K2).
Qed.

(** X24: [Flatten] never returns an error: it returns nil or panics. *)
Lemma Flatten_error_nil (slice r : any) (err : option error) :
  Flatten slice = Ok (r, err) -> err = None.
Proof.
  unfold Flatten.
  destruct (Kind_eqb (Value_Kind (ValueOf slice)) Slice
            || Kind_eqb (Value_Kind (ValueOf slice)) Array); [|congruence].
  destruct (flattenLength (elements (ValueOf slice)) 0); [|congruence].
  destruct (Value_Index (ValueOf slice) 0) as [s0|]; [|discriminate]. cbn [bind].
  destruct (Value_Index s0 0) as [s00|]; [|discriminate]. cbn [bind].
  destruct (Value_Type s00) as [t|]; [|discriminate]. cbn [bind].
  destruct (MakeSlice (Tslice t) n 0) as [s|]; [|discriminate]. cbn [bind].
  destruct (flattenFill (elements (ValueOf slice)) 0 s) as [s'|]; [|discriminate].
  cbn [bind]. destruct (Value_Interface s'); [|discriminate]. cbn [bind]. congruence.
Qed.

(** Counterexample to C1 as stated: [Concat(&dst, addend)] with [dst = []int{1}] and
    [addend = []int{2, 2}] returns nil and leaves [dst = []int{1, 2, 2}];
    the two values it appended have the same key. *)
Lemma Concat_repeated_addend :
  Concat noStructs AddressOf (intSlice [2; 2]%Z) (Tslice Tint, ints [1]%Z)
  = (Ok None, (Tslice Tint, ints ([1]%Z ++ [2; 2]%Z)))
  /\ ~ NoDup (map (keyOf noStructs Tint) (map Vint [2; 2]%Z)).
Proof.
  split; [reflexivity|].
  intros H. inversion H as [ | k l Hn _]. apply Hn. now left.
Qed.

Lemma Concat_appends_absent_keys_witness :
  Concat noStructs AddressOf (intSlice [2; 2]%Z) (Tslice Tint, ints [1]%Z)
  = (Ok None, (Tslice Tint, ints [1; 2; 2]%Z))
  /\ (Tslice Tint = Tslice Tint
      /\ map Vint [1; 2; 2]%Z
         = map Vint [1]%Z
           ++ map (storedAs Tint) [Val Tint (Vint 2); Val Tint (Vint 2)]
      /\ Forall (fun v => ~ In (keyOfValue noStructs v) [Box Tint (Vint 1)])
                [Val Tint (Vint 2); Val Tint (Vint 2)]).
Proof.
  split; [reflexivity|].
  apply (Concat_appends_absent_keys noStructs (intSlice [2; 2]%Z) Tint (ints [1]%Z)
           (Tslice Tint, ints [1; 2; 2]%Z)).
  reflexivity.
Defined.

(** C2: three calls that panic instead of returning an error -- [Flatten]
    on an empty slice, [Replace] on a pointer to an [int], [Unique] on a
    [[][]int]. *)
Theorem operations_that_panic :
  Flatten (intSlice []) = Panicked "reflect: slice index out of range"
  /\ Replace AddressOf (int 1) (int 2) (Tint, Vint 5)
     = (Panicked "reflect: Elem of invalid type", (Tint, Vint 5))
  /\ Unique noStructs AddressOf (Tslice (Tslice Tint), Vslice [ints [1]%Z])
     = (Panicked "runtime error: hash of unhashable type",
        (Tslice (Tslice Tint), Vslice [ints [1]%Z])).
Proof. repeat split. Qed.

(** C3: [Flatten([[1,2],[3]])] is [[1,2,3]] and [Flatten([1,2,3])] is its
    argument, both with a nil error; [Flatten([])] panics at
    [sv.Index(0)]. *)
Theorem Flatten_examples :
  Flatten (Of (Box (Tslice (Tslice Tint)) (Vslice [ints [1; 2]%Z; ints [3]%Z])))
  = Ok (intSlice [1; 2; 3]%Z, None)
  /\ Flatten (intSlice [1; 2; 3]%Z) = Ok (intSlice [1; 2; 3]%Z, None)
  /\ Flatten (intSlice []) = Panicked "reflect: slice index out of range".
Proof. repeat split. Qed.

(** C4: [Concat(&s, []interface{}{1, []int{2}})] on an empty
    [s []interface{}] appends [1], then panics on the key of [[]int{2}]:
    no error is returned and [s] is left holding [1]. *)
Theorem Concat_panics_after_appending :
  Concat noStructs AddressOf
         (Of (Box (Tslice Tiface)
                  (Vslice [Viface Tint (Vint 1); Viface (Tslice Tint) (ints [2]%Z)])))
         (Tslice Tiface, Vslice [])
  = (Panicked "runtime error: hash of unhashable type",
     (Tslice Tiface, Vslice [Viface Tint (Vint 1)])).
Proof. reflexivity. Qed.

(** A needle [[]interface{}{2, "x"}]: every element of it has kind
    Interface for [reflect], so on a [[]int] the first one already fails the
    kind test and nothing is removed, and on a [[]interface{}] none fails. *)
Lemma Remove_mixed_needle :
  let needle := Of (Box (Tslice Tiface)
                        (Vslice [Viface Tint (Vint 2); Viface Tstring (Vstring "x")])) in
  Remove AddressOf needle (Tslice Tint, ints [1; 2; 3]%Z)
  = (Ok (Some ErrNotSameType), (Tslice Tint, ints [1; 2; 3]%Z))
  /\ Remove AddressOf needle
            (Tslice Tiface, Vslice [Viface Tint (Vint 1); Viface Tint (Vint 2);
                                    Viface Tstring (Vstring "x")])
     = (Ok None, (Tslice Tiface, Vslice [Viface Tint (Vint 1)])).
Proof. split; reflexivity. Qed.

(** C5: [Contains([1,2,3], [2,5])] is true with a nil error, but on two
    slices of slices with a deeply equal element -- [[][]int{{1}}] twice --
    [Contains] returns false and NotASequence: the third call receives a
    [reflect.Value] as its source. *)
Theorem Contains_slices_of_slices :
  Contains (intSlice [1; 2; 3]%Z) (intSlice [2; 5]%Z) = Some (Ok (true, None))
  /\ Contains (Of (Box (Tslice (Tslice Tint)) (Vslice [ints [1]%Z])))
              (Of (Box (Tslice (Tslice Tint)) (Vslice [ints [1]%Z])))
     = Some (Ok (false, Some ErrNotSlice))
  /\ DeepEqual (Box (Tslice Tint) (ints [1]%Z)) (Box (Tslice Tint) (ints [1]%Z)) = true.
Proof. repeat split. Qed.

(** An array needle, which the test of the needle's kind lets in, meets the
    same end; and a nil needle against a non-empty source panics. *)
Lemma Contains_array_and_nil_needles :
  Contains (intSlice [1; 2; 3]%Z) (Of (Box (Tarray 2 Tint) (Varray (map Vint [2; 5]%Z))))
  = Some (Ok (false, Some ErrNotSlice))
  /\ Contains (Of (Box (Tslice Tiface) (Vslice [Vnil]))) (Of Nil)
     = Some (Panicked "reflect: call of reflect.Value.Interface on zero Value").
Proof. repeat split. Qed.

(** Counterexample to C6 as stated: on [[][]int{{1}, {1}}] a single
    [Unique] panics on the first key, and the slice still holds its two
    deeply equal elements, not the first occurrence alone. *)
Lemma Unique_unhashable_duplicates :
  let s := Vslice [ints [1]%Z; ints [1]%Z] in
  Unique noStructs AddressOf (Tslice (Tslice Tint), s)
  = (Panicked "runtime error: hash of unhashable type", (Tslice (Tslice Tint), s))
  /\ firstOccurrences (keyOf noStructs (Tslice Tint)) [] (elems s) = [ints [1]%Z]
  /\ elems s <> firstOccurrences (keyOf noStructs (Tslice Tint)) [] (elems s).
Proof. split; [reflexivity|]. split; [reflexivity|discriminate]. Qed.

Lemma Unique_idempotent_first_occurrences_witness :
  forallb hashable (map (keyOf noStructs Tint) (map Vint [1; 2; 1; 3; 2]%Z)) = true
  /\ (Unique noStructs AddressOf (Tslice Tint, ints [1; 2; 1; 3; 2]%Z)
      = (Ok None, (Tslice Tint, ints [1; 2; 3]%Z))
      /\ Unique noStructs AddressOf (Tslice Tint, ints [1; 2; 3]%Z)
         = (Ok None, (Tslice Tint, ints [1; 2; 3]%Z))
      /\ NoDup (map (keyOf noStructs Tint) (map Vint [1; 2; 3]%Z))
      /\ (forall di, In di (map Vint [1; 2; 1; 3; 2]%Z) ->
                     In (keyOf noStructs Tint di)
                        (map (keyOf noStructs Tint) (map Vint [1; 2; 3]%Z)))).
Proof.
  split; [reflexivity|].
  apply (Unique_idempotent_first_occurrences noStructs Tint (ints [1; 2; 1; 3; 2]%Z)).
  reflexivity.
Defined.

Lemma Intersect_keeps_common_keys_witness :
  Intersect noStructs AddressOf (intSlice [2; 3; 7]%Z) (Tslice Tint, ints [1; 2; 1; 3; 2]%Z)
  = (Ok None, (Tslice Tint, ints [2; 3; 2]%Z))
  /\ exists e d t nd,
       AddressOf = AddressOf
       /\ (Tslice Tint, ints [1; 2; 1; 3; 2]%Z) = (Tslice e, d)
       /\ intSlice [2; 3; 7]%Z = Of (Box (Tslice t) nd)
       /\ let keys := map (keyOf noStructs t) (elems nd) in
          let kept := filter (fun di => existsb (DeepEqual (keyOf noStructs e di)) keys)
                             (elems d) in
          (Tslice Tint, ints [2; 3; 2]%Z) = (Tslice e, Vslice kept)
          /\ Forall (fun di => In (keyOf noStructs e di) keys) kept
          /\ (forall di, In di (elems d) -> In (keyOf noStructs e di) keys -> In di kept)
          /\ List.length kept <= List.length (elems d).
Proof.
  split; [reflexivity|].
  apply (Intersect_keeps_common_keys noStructs AddressOf (intSlice [2; 3; 7]%Z)
           (Tslice Tint, ints [1; 2; 1; 3; 2]%Z) (Tslice Tint, ints [2; 3; 2]%Z)).
  reflexivity.
Defined.

Lemma Remove_scalar_witness :
  Remove AddressOf (int 2) (Tslice Tint, ints [1; 2; 3; 2]%Z)
  = (Ok None, (Tslice Tint, ints [1; 3]%Z))
  /\ (Type_Kind Tint = Type_Kind Tint
      /\ (Tslice Tint, ints [1; 3]%Z) = (Tslice Tint, Vslice (map Vint [1; 3]%Z))
      /\ Contains (intSlice [1; 3]%Z) (int 2) = Some (Ok (false, None))
      /\ 2 = 4 - 2).
Proof.
  split; [reflexivity|].
  apply (Remove_scalar Tint Tint (ints [1; 2; 3; 2]%Z) (Vint 2) (int 2)
           (Tslice Tint, ints [1; 3]%Z)).
  - reflexivity.
  - discriminate.
  - discriminate.
  - reflexivity.
Defined.

Lemma Remove_errors_witness :
  Remove AddressOf (Of (Box Tstring (Vstring "a"))) (Tslice Tint, ints [1; 2]%Z)
  = (Ok (Some ErrNotSameType), (Tslice Tint, ints [1; 2]%Z)).
Proof.
  apply (proj1 (proj2 (proj2 (Remove_errors AddressOf (Of (Box Tstring (Vstring "a")))
                                 (Tslice Tint, ints [1; 2]%Z)))) Tint eq_refl eq_refl eq_refl).
  discriminate.
Defined.

Lemma Remove_empty_needle_witness :
  Remove AddressOf (Of (Box (Tslice Tstring) (Vslice []))) (Tslice Tint, ints [1; 2]%Z)
  = (Ok None, (Tslice Tint, ints [1; 2]%Z)).
Proof.
  apply (Remove_empty_needle (Of (Box (Tslice Tstring) (Vslice []))) Tstring Tint
           (Vslice []) (ints [1; 2]%Z)).
  - reflexivity.
  - reflexivity.
Defined.

(** ** Beyond the specification: Remove on a needle of any depth *)

Lemma filter_filter_and {A : Type} (p q : A -> bool) (l : list A) :
  filter q (filter p l) = filter (fun a => p a && q a) l.
Proof.
  induction l as [ | a l IH]; simpl; [easy|].
  destruct (p a); simpl; [destruct (q a); now rewrite IH | exact IH].
Qed.

Lemma removed_app (e : rtype) (l1 l2 : list iface) (dx : val) :
  removed e l2 (removed e l1 dx) = removed e (l1 ++ l2) dx.
Proof.
  destruct l1 as [ | a l1]; [reflexivity|].
  destruct l2 as [ | b l2]; [now rewrite app_nil_r|].
  cbn [removed app elems]. rewrite filter_filter_and. f_equal.
  apply filter_ext. intros di.
  change (a :: l1 ++ b :: l2) with ((a :: l1) ++ b :: l2).
  now rewrite (existsb_app _ (a :: l1)), negb_orb.
Qed.

Lemma removed_twice (e : rtype) (l : list iface) (dx : val) :
  removed e l (removed e l dx) = removed e l dx.
Proof.
  destruct l as [ | a l]; [reflexivity|].
  cbn [removed elems]. rewrite filter_filter_and. f_equal.
  apply filter_ext. intros di. apply andb_diag.
Qed.

Lemma removed_elems (e : rtype) (l : list iface) (dx : val) :
  elems (removed e l dx)
  = filter (fun di => negb (existsb (DeepEqual (ifaceOf e di)) l)) (elems dx).
Proof.
  destruct l as [ | a l]; [|reflexivity].
  cbn [removed existsb negb]. induction (elems dx) as [ | d l IH]; simpl; congruence.
Qed.

(** [Remove] on a needle of any depth: it removes the elements deeply equal
    to one of the needle's scalars when the kinds agree, and when they do
    not it fails at the first scalar -- or returns nil for want of one. *)
Lemma RemoveValue_removed (d : val) :
  forall (t e : rtype) (dx : val),
    (Kind_eqb (Type_Kind e) (Type_Kind (scalarType t)) = true ->
     RemoveValue AddressOf t d (Tslice e, dx)
     = (Ok None, (Tslice e, removed e (scalars t d) dx)))
    /\
    (Kind_eqb (Type_Kind e) (Type_Kind (scalarType t)) = false ->
     (scalars t d = []
      /\ RemoveValue AddressOf t d (Tslice e, dx) = (Ok None, (Tslice e, dx)))
     \/ RemoveValue AddressOf t d (Tslice e, dx)
        = (Ok (Some ErrNotSameType), (Tslice e, dx))).
Proof.
  assert (Scalar : forall t e d dx,
             Type_Kind t <> Slice ->
             (Kind_eqb (Type_Kind e) (Type_Kind (scalarType t)) = true ->
              RemoveValue AddressOf t d (Tslice e, dx)
              = (Ok None, (Tslice e, removed e (scalars t d) dx)))
             /\
             (Kind_eqb (Type_Kind e) (Type_Kind (scalarType t)) = false ->
              (scalars t d = []
               /\ RemoveValue AddressOf t d (Tslice e, dx) = (Ok None, (Tslice e, dx)))
              \/ RemoveValue AddressOf t d (Tslice e, dx)
                 = (Ok (Some ErrNotSameType), (Tslice e, dx)))).
  { intros t e d0 dx Ht. rewrite RemoveValue_unfold.
    cbn [deref fst snd isSlice Value_Kind Type_Kind Kind_eqb negb].
    assert (St : scalarType t = t) by (destruct t; try reflexivity; now contradiction Ht).
    assert (Sc : scalars t d0 = [ifaceOf t d0]).
    { destruct t; try (destruct d0; reflexivity). now contradiction Ht. }
    rewrite St, Sc. split; intros K.
    - assert (R : removeElement (Val (Tslice e) dx) (Val t d0) (Tslice e, dx)
                  = (Ok None, (Tslice e, removed e [ifaceOf t d0] dx))).
      { rewrite (removeElement_same_kind e t dx d0 K). cbn [removed]. do 3 f_equal.
        apply filter_ext. intros di. cbn [existsb]. now rewrite orb_false_r. }
      destruct t; try exact R. now contradiction Ht.
    - right. destruct t; try (apply removeElement_other_kind; exact K).
      now contradiction Ht. }
  assert (Each : forall l,
             list_all val (fun d => forall t e dx,
               (Kind_eqb (Type_Kind e) (Type_Kind (scalarType t)) = true ->
                RemoveValue AddressOf t d (Tslice e, dx)
                = (Ok None, (Tslice e, removed e (scalars t d) dx)))
               /\
               (Kind_eqb (Type_Kind e) (Type_Kind (scalarType t)) = false ->
                (scalars t d = []
                 /\ RemoveValue AddressOf t d (Tslice e, dx) = (Ok None, (Tslice e, dx)))
                \/ RemoveValue AddressOf t d (Tslice e, dx)
                   = (Ok (Some ErrNotSameType), (Tslice e, dx)))) l ->
             forall t e dx,
               (Kind_eqb (Type_Kind e) (Type_Kind (scalarType t)) = true ->
                removeEach (RemoveValue AddressOf t) l (Tslice e, dx)
                = (Ok None, (Tslice e, removed e (flat_map (scalars t) l) dx)))
               /\
               (Kind_eqb (Type_Kind e) (Type_Kind (scalarType t)) = false ->
                (flat_map (scalars t) l = []
                 /\ removeEach (RemoveValue AddressOf t) l (Tslice e, dx)
                    = (Ok None, (Tslice e, dx)))
                \/ removeEach (RemoveValue AddressOf t) l (Tslice e, dx)
                   = (Ok (Some ErrNotSameType), (Tslice e, dx)))).
  { intros l H. induction H as [ | d0 Hd l Hl IH]; intros t e dx; split; intros K.
    - reflexivity.
    - left. now split.
    - cbn [removeEach flat_map]. rewrite (proj1 (Hd t e dx) K).
      rewrite (proj1 (IH t e _) K). now rewrite removed_app.
    - cbn [removeEach flat_map].
      destruct (proj2 (Hd t e dx) K) as [[S0 ->] | ->]; [|now right].
      rewrite S0. destruct (proj2 (IH t e dx) K) as [[S1 ->] | ->];
        [left; now split | now right]. }
  induction d as [ b | n | s | | l IH | l IH | l IH | t' d IH ]; intros t e dx;
    (destruct (Kind_eqb (Type_Kind t) Slice) eqn:Kt;
     [ apply Kind_eqb_eq in Kt; destruct t as [ | | | | t0 | | ]; try discriminate
     | apply Scalar; intros Kt'; rewrite Kt' in Kt; discriminate ]).
  all: try (pose proof (Each l IH t0 e dx) as R; rewrite RemoveValue_unfold;
            cbn [deref fst snd isSlice Value_Kind Type_Kind Kind_eqb negb elems
                 scalarType scalars];
            exact R).
  all: rewrite RemoveValue_unfold;
    cbn [deref fst snd isSlice Value_Kind Type_Kind Kind_eqb negb elems scalarType
         scalars removeEach removed];
    split; intros K; [reflexivity | left; now split].
Qed.

Lemma Remove_removed (needle : any) (t e : rtype) (nd d : val) (x' : variable) :
  toValue needle = Val t nd ->
  Remove AddressOf needle (Tslice e, d) = (Ok None, x') ->
  x' = (Tslice e, removed e (scalars t nd) d).
Proof.
  intros E. rewrite Remove_slice_variable, E.
  destruct (Kind_eqb (Type_Kind e) (Type_Kind (scalarType t))) eqn:K.
  - rewrite (proj1 (RemoveValue_removed nd t e d) K). congruence.
  - destruct (proj2 (RemoveValue_removed nd t e d) K) as [[S ->] | ->];
      [|discriminate].
    rewrite S. cbn [removed]. congruence.
Qed.

(** X1: when [Remove(&s, needle)] returns nil, [s] holds, in their order,
    exactly the elements it held that are not deeply equal to any scalar of
    the needle (the needle itself, or what its nested slices are made
    of). *)
Theorem Remove_removes_the_scalars (needle : any) (t e : rtype) (nd d : val)
        (x' : variable) :
  toValue needle = Val t nd ->
  Remove AddressOf needle (Tslice e, d) = (Ok None, x') ->
  fst x' = Tslice e
  /\ elems (snd x')
     = filter (fun di => negb (existsb (DeepEqual (ifaceOf e di)) (scalars t nd)))
              (elems d).
Proof.
  intros E H. rewrite (Remove_removed needle t e nd d x' E H).
  split; [reflexivity | apply removed_elems].
Qed.

(** X2: [Remove] is idempotent: whatever a call returned, the same call on
    the variable it left returns the same and leaves it as it is. *)
Theorem Remove_twice (src : source) (needle : any) (x x' : variable)
        (r : result (option error)) :
  Remove src needle x = (r, x') -> Remove src needle x' = (r, x').
Proof.
  intros H. destruct (Remove_returns src needle x) as [r0 [x1 [E U]]].
  rewrite E in H. injection H as <- <-.
  destruct r0 as [err|]; [now rewrite (U ltac:(discriminate)) in * |].
  clear U. destruct src as [ | | a].
  - destruct x as [tx d]. destruct (isSlice (Val tx d)) eqn:S.
    + cbn [isSlice Value_Kind] in S. destruct tx as [ | | | | e | | ]; try discriminate.
      destruct (toValue needle) as [ | t nd] eqn:N.
      * rewrite Remove_slice_variable, N in E. discriminate.
      * pose proof (Remove_removed needle t e nd d x1 N E) as ->.
        rewrite Remove_slice_variable, N.
        destruct (Kind_eqb (Type_Kind e) (Type_Kind (scalarType t))) eqn:K.
        -- rewrite (proj1 (RemoveValue_removed nd t e _) K). now rewrite removed_twice.
        -- rewrite Remove_slice_variable, N in E.
           destruct (proj2 (RemoveValue_removed nd t e d) K) as [[S0 R] | R];
             rewrite R in E; [|discriminate].
           rewrite S0. exact R.
    + rewrite (Remove_not_slice AddressOf needle (tx, d) _ eq_refl S) in E. discriminate.
  - rewrite (Remove_not_slice NilPointer needle x Zero eq_refl eq_refl) in E.
    discriminate.
  - rewrite (Remove_not_pointer (NotPointer a) needle x eq_refl) in E. discriminate.
Qed.

(** X3: [Remove] never panics on a needle that is an ordinary value (nil
    included), whatever the source argument is and the variable holds. *)
Theorem Remove_never_panics (src : source) (needle : iface) (x : variable) :
  exists r, fst (Remove src (Of needle) x) = Ok r.
Proof.
  destruct (Remove_returns src (Of needle) x) as [r [x' [E _]]].
  exists r. now rewrite E.
Qed.

(** X4: after [Remove(&s, needle)] returned nil for a slice needle of
    scalars, on a sequence whose elements are neither slices nor arrays,
    [Contains(s, needle)] is false with no error. *)
Theorem Remove_then_Contains (t e : rtype) (nd d : val) (x' : variable) :
  Type_Kind t <> Slice ->
  Type_Kind e <> Slice -> Type_Kind e <> Array ->
  Remove AddressOf (Of (Box (Tslice t) nd)) (Tslice e, d) = (Ok None, x') ->
  Contains (Of (Box (fst x') (snd x'))) (Of (Box (Tslice t) nd))
  = Some (Ok (false, None)).
Proof.
  intros Kt K1 K2 H.
  pose proof (Remove_removed (Of (Box (Tslice t) nd)) (Tslice t) e nd d x' eq_refl H) as ->.
  cbn [fst snd]. rewrite (Contains_slice_needle e t _ nd K1 K2).
  rewrite removed_elems. do 3 f_equal.
  apply not_true_is_false. intros Hx. apply existsb_exists in Hx.
  destruct Hx as [di [Hin Hn]]. apply filter_In in Hin. destruct Hin as [_ Hk].
  apply existsb_exists in Hn. destruct Hn as [nj [Hj Eq]].
  apply DeepEqual_eq in Eq.
  assert (In (ifaceOf e di) (scalars (Tslice t) nd)) as Hs.
  { rewrite <- Eq. cbn [scalars].
    assert (F : forall l, In nj l -> In (ifaceOf t nj) (flat_map (scalars t) l)).
    { intros l Hl. apply in_flat_map. exists nj. split; [exact Hl|].
      destruct t; try (destruct nj; now left). now contradiction Kt. }
    destruct nd; try easy; now apply F. }
  apply existsb_DeepEqual_In in Hs. rewrite Hs in Hk. discriminate.
Qed.

(** ** Beyond the specification: the index-filtered copy on its own *)

Lemma positions_of_sorted (n : nat) :
  forall (start : nat) (idx : list nat),
    StronglySorted lt idx ->
    Forall (fun j => start <= j < start + n) idx ->
    positions (map (fun i => existsb (Nat.eqb i) idx) (seq start n)) start = idx.
Proof.
  induction n as [ | n IH]; intros start idx Hs Hr.
  - destruct idx as [ | j idx]; [reflexivity|]. inversion Hr; lia.
  - cbn [seq map positions]. destruct idx as [ | j idx].
    + cbn [existsb app]. apply (IH (S start) []); constructor.
    + inversion Hs as [ | j' idx' Hs' Hlt]; subst.
      inversion Hr as [ | j' idx' Hj Hr']; subst.
      assert (Hgt : Forall (fun k => j < k /\ k < start + S n) idx).
      { apply Forall_forall. intros k Hk. split.
        - rewrite Forall_forall in Hlt. now apply Hlt.
        - rewrite Forall_forall in Hr'. apply Hr' in Hk. lia. }
      destruct (Nat.eq_dec j start) as [-> | Hne].
      * cbn [existsb]. rewrite Nat.eqb_refl. cbn [orb app]. f_equal.
        transitivity (positions (map (fun i => existsb (Nat.eqb i) idx)
                                     (seq (S start) n)) (S start)).
        -- f_equal. apply map_ext_in. intros i Hi. apply in_seq in Hi.
           cbn [existsb]. replace (Nat.eqb i start) with false; [reflexivity|].
           symmetry. apply Nat.eqb_neq. lia.
        -- apply (IH (S start) idx Hs').
           eapply Forall_impl; [|exact Hgt]. cbv beta. intros k Hk. lia.
      * replace (existsb (Nat.eqb start) (j :: idx)) with false.
        -- cbn [app]. apply (IH (S start) (j :: idx) Hs).
           constructor; [lia|].
           eapply Forall_impl; [|exact Hgt]. cbv beta. intros k Hk. lia.
        -- symmetry. apply not_true_is_false. intros Hx.
           apply existsb_exists in Hx. destruct Hx as [k [Hk Ek]].
           apply Nat.eqb_eq in Ek. subst k. destruct Hk as [Hk|Hk]; [lia|].
           rewrite Forall_forall in Hgt. apply Hgt in Hk. lia.
Qed.

(** X5: given indices in ascending order, each within the slice,
    [removeFromSlice] does not panic and returns a new slice of the same
    type holding, in their order, the elements at the other indices;
    it is shorter by the number of indices. *)
Theorem removeFromSlice_ascending (idx : list nat) (e : rtype) (d : val) :
  StronglySorted lt idx ->
  Forall (fun j => j < List.length (elems d)) idx ->
  let mask := map (fun i => existsb (Nat.eqb i) idx) (seq 0 (List.length (elems d))) in
  removeFromSlice idx (Val (Tslice e) d)
  = Ok (Val (Tslice e) (Vslice (keep mask (elems d))))
  /\ List.length (keep mask (elems d)) + List.length idx = List.length (elems d).
Proof.
  intros Hs Hr mask.
  assert (P : positions mask 0 = idx).
  { apply positions_of_sorted; [exact Hs|].
    eapply Forall_impl; [|exact Hr]. cbv beta. intros j Hj. lia. }
  assert (L : List.length mask = List.length (elems d)).
  { unfold mask. now rewrite length_map, length_seq. }
  split.
  - rewrite <- P at 1. now apply removeFromSlice_mask.
  - pose proof (positions_length mask 0) as PL. rewrite P in PL.
    assert (KL : forall (m : list bool) (l : list val),
               List.length m = List.length l ->
               List.length (keep m l) = List.length (filter negb m)).
    { induction m as [ | b m IH]; intros [ | a l]; simpl; try easy.
      intros E. injection E as E. destruct b; simpl; now rewrite IH. }
    rewrite (KL mask (elems d) L). lia.
Qed.

(** ** Beyond the specification: Contains *)

Lemma containsElement_no_error (ev : Value) (l : list Value) (b : bool)
      (o : option error) :
  containsElement ev l = Ok (b, o) -> o = None.
Proof.
  induction l as [ | vi l IH]; cbn [containsElement]; [congruence|].
  destruct (Value_Interface vi) as [a|]; [|discriminate]. cbn [bind].
  destruct (Value_Interface ev) as [c|]; [|discriminate]. cbn [bind].
  destruct (DeepEqual a c); [congruence | exact IH].
Qed.

Lemma containsAny_error (f : Value -> option (result (bool * option error)))
      (l : list Value) (b : bool) (err : error) :
  containsAny f l = Some (Ok (b, Some err)) ->
  b = false /\ exists v b', f v = Some (Ok (b', Some err)).
Proof.
  induction l as [ | vi l IH]; cbn [containsAny]; [discriminate|].
  destruct (f vi) as [[[[|] [e|]]|msg]|] eqn:F; try discriminate;
    try (intros H; injection H as <- <-; split; [reflexivity | eauto]).
  exact IH.
Qed.

(** X6: the only error [Contains] returns is NotASequence, and it never
    returns true together with an error. *)
Theorem Contains_only_error (src element : any) (b : bool) (err : error) :
  Contains src element = Some (Ok (b, Some err)) ->
  b = false /\ err = ErrNotSlice.
Proof.
  unfold Contains. cbn [ContainsN].
  destruct (negb (isSlice (ValueOf src))); [intros H; injection H as <- <-; auto|].
  destruct (Kind_eqb (Value_Kind (toValue element)) Slice
            || Kind_eqb (Value_Kind (toValue element)) Array).
  - intros H. apply containsAny_error in H. destruct H as [-> [v [b' H]]].
    split; [reflexivity|]. revert H.
    destruct (negb (isSlice (ValueOf element))); [congruence|].
    destruct (Kind_eqb (Value_Kind (toValue (OfValue v))) Slice
              || Kind_eqb (Value_Kind (toValue (OfValue v))) Array).
    + intros H. apply containsAny_error in H. destruct H as [_ [w [b'' H]]].
      cbn in H. congruence.
    + intros H. injection H as H. apply containsElement_no_error in H. discriminate.
  - intros H. injection H as H. apply containsElement_no_error in H. discriminate.
Qed.

(** X7: for a source whose elements are neither slices nor arrays and a
    slice needle, [Contains] returns no error, and true exactly when some
    element of the source is deeply equal to some element of the needle. *)
Theorem Contains_any_of (e t : rtype) (d nd : val) :
  Type_Kind e <> Slice -> Type_Kind e <> Array ->
  exists b,
    Contains (Of (Box (Tslice e) d)) (Of (Box (Tslice t) nd)) = Some (Ok (b, None))
    /\ (b = true <->
        exists di nj, In di (elems d) /\ In nj (elems nd)
                      /\ ifaceOf t nj = ifaceOf e di).
Proof.
  intros K1 K2. eexists. split; [apply (Contains_slice_needle e t d nd K1 K2)|].
  rewrite existsb_exists. split.
  - intros [di [Hd Hx]]. apply existsb_exists in Hx. destruct Hx as [nj [Hn Eq]].
    apply DeepEqual_eq in Eq. eauto.
  - intros [di [nj [Hd [Hn Eq]]]]. exists di. split; [exact Hd|].
    apply existsb_exists. exists nj. split; [exact Hn | now apply DeepEqual_eq].
Qed.

(** X8: for a needle that is neither slice nor array, [Contains] on a slice
    returns no error, and true exactly when some element is deeply equal to
    the needle. *)
Theorem Contains_one (e t : rtype) (d v : val) (needle : any) :
  toValue needle = Val t v ->
  Type_Kind t <> Slice -> Type_Kind t <> Array ->
  exists b,
    Contains (Of (Box (Tslice e) d)) needle = Some (Ok (b, None))
    /\ (b = true <-> exists di, In di (elems d) /\ ifaceOf e di = ifaceOf t v).
Proof.
  intros E K1 K2. eexists. split; [apply (Contains_scalar_needle e t d v needle E K1 K2)|].
  rewrite existsb_exists. split.
  - intros [di [Hd Eq]]. apply DeepEqual_eq in Eq. eauto.
  - intros [di [Hd Eq]]. exists di. split; [exact Hd | now apply DeepEqual_eq].
Qed.

(** ** Beyond the specification: Unique, Intersect and Concat *)

Section KeyedOperations.

Variable Marshal : iface -> string.

Lemma keep_length_le {A : Type} (mask : list bool) (l : list A) :
  List.length (keep mask l) <= List.length l.
Proof.
  revert l. induction mask as [ | b mask IH]; intros [ | a l]; simpl; try lia.
  specialize (IH l). destruct b; simpl; lia.
Qed.

Lemma forallb_map_filter {A B : Type} (p : B -> bool) (f : A -> B) (q : A -> bool)
      (l : list A) :
  forallb p (map f l) = true -> forallb p (map f (filter q l)) = true.
Proof.
  induction l as [ | a l IH]; simpl; [easy|].
  rewrite andb_true_iff. intros [Ha Hl].
  destruct (q a); simpl; [rewrite Ha|]; now apply IH.
Qed.

(** X9: [Unique] on a pointer to a slice panics exactly when the key of some
    element cannot be hashed, and then leaves the slice as it was;
    otherwise it returns nil and the slice is not longer than before. *)
Theorem Unique_returns_or_panics (e : rtype) (d : val) :
  (forallb hashable (map (keyOf Marshal e) (elems d)) = true ->
   exists d', Unique Marshal AddressOf (Tslice e, d) = (Ok None, (Tslice e, d'))
              /\ List.length (elems d') <= List.length (elems d))
  /\ (forallb hashable (map (keyOf Marshal e) (elems d)) = false ->
      Unique Marshal AddressOf (Tslice e, d)
      = (Panicked "runtime error: hash of unhashable type", (Tslice e, d))).
Proof.
  rewrite Unique_slice. split; intros ->; [|reflexivity].
  eexists. split; [reflexivity|]. cbn [elems]. apply keep_length_le.
Qed.

(** X10: on a slice of [bool], [int] or [string], and on a slice of any
    struct type -- whose key is the JSON text, whatever its fields are --
    [Unique] returns nil: it cannot panic. *)
Theorem Unique_basic_and_struct_elements (e : rtype) (d : val) :
  e = Tbool \/ e = Tint \/ e = Tstring \/ Type_Kind e = Struct ->
  fst (Unique Marshal AddressOf (Tslice e, d)) = Ok None.
Proof.
  intros He. rewrite Unique_slice.
  assert (H : forallb hashable (map (keyOf Marshal e) (elems d)) = true).
  { apply forallb_forall. intros k Hk. apply in_map_iff in Hk.
    destruct Hk as [di [<- _]]. unfold keyOf.
    destruct He as [-> | [-> | [-> | Ks]]]; try (destruct di; reflexivity).
    rewrite Ks. reflexivity. }
  now rewrite H.
Qed.

(** X11: [Intersect] is idempotent: whatever a call returned (nil, an error
    or a panic), the same call on the variable it left returns the same and
    leaves it as it is. *)
Theorem Intersect_twice (src : source) (dst : any) (x x' : variable)
        (r : result (option error)) :
  Intersect Marshal src dst x = (r, x') ->
  Intersect Marshal src dst x' = (r, x').
Proof.
  destruct src as [ | | a]; try (intros H; injection H as <- <-; reflexivity).
  destruct x as [tx d].
  destruct (isSlice (Val tx d) && isSlice (ValueOf dst)) eqn:S.
  - apply andb_true_iff in S. destruct S as [Sx Sd].
    cbn [isSlice Value_Kind] in Sx. destruct tx as [ | | | | e | | ]; try discriminate.
    destruct (isSlice_ValueOf dst Sd) as [t [nd ->]].
    rewrite Intersect_slices.
    destruct (forallb hashable (map (keyOf Marshal t) (elems nd))) eqn:Ht; cbn [andb].
    + destruct (forallb hashable (map (keyOf Marshal e) (elems d))) eqn:Hd.
      * intros H. injection H as <- <-. rewrite Intersect_slices, Ht. cbn [elems andb].
        rewrite (forallb_map_filter _ _ _ _ Hd), filter_filter_and.
        do 3 f_equal. apply filter_ext. intros di. apply andb_diag.
      * intros H. injection H as <- <-. rewrite Intersect_slices, Ht, Hd. reflexivity.
    + intros H. injection H as <- <-. rewrite Intersect_slices, Ht. reflexivity.
  - unfold Intersect. cbn [deref fst snd forallb]. rewrite andb_true_r, S. cbn [negb].
    intros H. injection H as <- <-. cbn [fst snd]. now rewrite S.
Qed.

(** X12: intersecting a slice with itself keeps all of it, when its keys
    can be hashed and, as on all the types modelled, are equal to
    themselves (no NaN among them): [Intersect(&s, s)] returns nil and [s]
    holds what it held. *)
Theorem Intersect_self (e : rtype) (d : val) :
  forallb hashable (map (keyOf Marshal e) (elems d)) = true ->
  Intersect Marshal AddressOf (Of (Box (Tslice e) d)) (Tslice e, d)
  = (Ok None, (Tslice e, Vslice (elems d))).
Proof.
  intros H. rewrite Intersect_slices, H. cbn [andb]. do 3 f_equal.
  apply forallb_filter_id. apply forallb_forall. intros di Hd.
  apply existsb_DeepEqual_In. now apply in_map.
Qed.

Lemma concatLoop_present (m : keyset) (l : list Value) (x : variable) :
  Forall (fun v => exists t d, v = Val t d
                               /\ hashable (keyOf Marshal t d) = true
                               /\ In (keyOf Marshal t d) m) l ->
  concatLoop Marshal m l x = (Ok None, x).
Proof.
  induction 1 as [ | v l [t [d [-> [Hh Hin]]]] Hl IH]; cbn [concatLoop]; [easy|].
  unfold appendNew. rewrite genKey_Val. cbn [bind]. unfold mapaccess. rewrite Hh.
  apply existsb_DeepEqual_In in Hin. now rewrite Hin.
Qed.

Lemma concatLoop_hashable (m : keyset) (l : list Value) :
  forall (x x' : variable) (r : option error),
    concatLoop Marshal m l x = (Ok r, x') ->
    Forall (fun v => exists t d, v = Val t d /\ hashable (keyOf Marshal t d) = true) l.
Proof.
  induction l as [ | v l IH]; intros x x' r; cbn [concatLoop]; [constructor|].
  destruct (appendNew Marshal m v x) as [[u|msg] x1] eqn:A; [|discriminate].
  intros H. constructor; [|now apply (IH x1 x' r)].
  revert A. unfold appendNew. destruct v as [ | t d]; [discriminate|].
  rewrite genKey_Val. cbn [bind]. unfold mapaccess.
  destruct (hashable (keyOf Marshal t d)) eqn:Hh; [|discriminate].
  intros _. exists t, d. now split.
Qed.

(** X13: appending the same slice of the destination's element type a
    second time appends nothing, the keys being, as on all the types
    modelled, equal to themselves (no NaN among them): when
    [Concat(&dst, addend)] returned nil, the same call again returns nil and
    leaves [dst] as it is. *)
Theorem Concat_twice (e : rtype) (nd d : val) (x' : variable) :
  Concat Marshal AddressOf (Of (Box (Tslice e) nd)) (Tslice e, d) = (Ok None, x') ->
  Concat Marshal AddressOf (Of (Box (Tslice e) nd)) x' = (Ok None, x').
Proof.
  unfold Concat at 1.
  cbn [deref fst snd ValueOf isSlice Value_Kind Type_Kind Kind_eqb negb elements].
  rewrite keysOf_spec.
  destruct (forallb hashable (map (keyOf Marshal e) (elems d))) eqn:Hd; [|discriminate].
  intros H. pose proof (concatLoop_hashable _ _ _ _ _ H) as Hn.
  apply concatLoop_appends in H. destruct H as [_ [Hx He]].
  destruct x' as [tx d']. cbn [fst snd] in Hx, He. subst tx.
  set (new := filter (fun v => negb (existsb (DeepEqual (keyOfValue Marshal v))
                                       (rev (map (keyOf Marshal e) (elems d)) ++ [])))
                     (map (Val e) (elems nd))) in He.
  assert (Hs : forall v, In v new -> exists nj, v = Val e nj /\ In nj (elems nd)
                                                /\ storedAs e v = nj).
  { intros v Hv. apply filter_In in Hv. destruct Hv as [Hv _].
    apply in_map_iff in Hv. destruct Hv as [nj [<- Hj]]. exists nj.
    cbn [storedAs]. now rewrite rtype_eqb_refl. }
  assert (Hh : forall nj, In nj (elems nd) -> hashable (keyOf Marshal e nj) = true).
  { intros nj Hj. rewrite Forall_forall in Hn.
    destruct (Hn (Val e nj) (in_map _ _ _ Hj)) as [t [dj [Eq Hk]]].
    injection Eq as <- <-. exact Hk. }
  assert (Hd' : forallb hashable (map (keyOf Marshal e) (elems d')) = true).
  { rewrite He, map_app, forallb_app, Hd. cbn [andb].
    apply forallb_forall. intros k Hk. apply in_map_iff in Hk.
    destruct Hk as [di [<- Hi]]. apply in_map_iff in Hi. destruct Hi as [v [<- Hv]].
    destruct (Hs v Hv) as [nj [_ [Hj ->]]]. now apply Hh. }
  unfold Concat.
  cbn [deref fst snd ValueOf isSlice Value_Kind Type_Kind Kind_eqb negb elements].
  rewrite keysOf_spec, Hd'. apply concatLoop_present.
  apply Forall_forall. intros v Hv. apply in_map_iff in Hv. destruct Hv as [nj [<- Hj]].
  exists e, nj. split; [reflexivity|]. split; [now apply Hh|].
  rewrite app_nil_r. apply in_rev. rewrite rev_involutive, He, map_app.
  apply in_or_app.
  destruct (existsb (DeepEqual (keyOf Marshal e nj))
                    (rev (map (keyOf Marshal e) (elems d)) ++ [])) eqn:P.
  - left. apply existsb_DeepEqual_In in P. rewrite app_nil_r in P.
    now apply in_rev in P.
  - right. apply in_map_iff. exists nj. split; [reflexivity|].
    apply in_map_iff. exists (Val e nj). split.
    + cbn [storedAs]. now rewrite rtype_eqb_refl.
    + apply filter_In. split; [now apply in_map|].
      cbn [keyOfValue]. now rewrite P.
Qed.

(** X14: a slice addend whose element type is not assignable to the
    destination's makes [Concat] panic as soon as one of its keys is new,
    before anything is appended: no TypeMismatch is returned on this
    path. *)
Theorem Concat_other_element_type (e t : rtype) (nd d : val) :
  AssignableTo t e = false ->
  forallb hashable (map (keyOf Marshal e) (elems d)) = true ->
  forallb hashable (map (keyOf Marshal t) (elems nd)) = true ->
  (exists nj, In nj (elems nd)
              /\ ~ In (keyOf Marshal t nj) (map (keyOf Marshal e) (elems d))) ->
  Concat Marshal AddressOf (Of (Box (Tslice t) nd)) (Tslice e, d)
  = (Panicked "reflect.Set: value is not assignable to type", (Tslice e, d)).
Proof.
  intros Ha Hd Hn [nj [Hj Hk]]. unfold AssignableTo in Ha.
  apply orb_false_iff in Ha. destruct Ha as [Ht He]. unfold Concat.
  cbn [deref fst snd ValueOf isSlice Value_Kind Type_Kind Kind_eqb negb elements].
  rewrite keysOf_spec, Hd, app_nil_r.
  induction (elems nd) as [ | a l IH]; [destruct Hj|].
  cbn [map forallb] in Hn. apply andb_true_iff in Hn. destruct Hn as [Hha Hl].
  cbn [map concatLoop]. unfold appendNew at 1. rewrite genKey_Val. cbn [bind].
  unfold mapaccess. rewrite Hha.
  destruct (existsb (DeepEqual (keyOf Marshal t a))
                    (rev (map (keyOf Marshal e) (elems d)))) eqn:P.
  - destruct Hj as [-> | Hj].
    + exfalso. apply Hk. apply existsb_DeepEqual_In in P. now apply in_rev in P.
    + now apply IH.
  - cbn [fst snd Append assignTo]. rewrite Ht.
    destruct e; try reflexivity. discriminate He.
Qed.

End KeyedOperations.

(** ** Beyond the specification: Replace *)




(** ** Beyond the specification: Flatten *)

Lemma flattenInner_spec (t : rtype) (l : list val) :
  forall (pre zs : list val),
    List.length l <= List.length zs ->
    flattenInner (map (Val t) l) (List.length pre)
                 (Val (Tslice t) (Vslice (pre ++ zs)))
    = Ok (List.length (pre ++ l),
          Val (Tslice t) (Vslice ((pre ++ l) ++ skipn (List.length l) zs))).
Proof.
  induction l as [ | d l IH]; intros pre zs Hl.
  - cbn [map flattenInner List.length skipn]. now rewrite app_nil_r.
  - destruct zs as [ | z zs]; [simpl in Hl; lia|].
    cbn [map flattenInner]. rewrite SetIndex_next. cbn [bind].
    replace (S (List.length pre)) with (List.length (pre ++ [d]))
      by (rewrite length_app; simpl; lia).
    rewrite IH by (simpl in Hl; lia).
    cbn [List.length skipn]. now rewrite <- app_assoc.
Qed.

Lemma flattenFill_spec (ti t : rtype) (outer : list val) :
  Type_Elem ti = Ok t ->
  forall (pre zs : list val),
    List.length (List.concat (map elems outer)) <= List.length zs ->
    flattenFill (map (Val ti) outer) (List.length pre)
                (Val (Tslice t) (Vslice (pre ++ zs)))
    = Ok (Val (Tslice t)
              (Vslice ((pre ++ List.concat (map elems outer))
                       ++ skipn (List.length (List.concat (map elems outer))) zs))).
Proof.
  intros Ti. induction outer as [ | din outer IH]; intros pre zs Hl.
  - cbn [map flattenFill List.concat List.length skipn]. now rewrite app_nil_r.
  - cbn [map List.concat] in *. rewrite length_app in Hl. cbn [flattenFill].
    assert (El : elements (Val ti din) = map (Val t) (elems din)).
    { destruct ti; try discriminate; injection Ti as ->; reflexivity. }
    rewrite El, flattenInner_spec by lia. cbn [bind fst snd].
    assert (Z : List.length (elems din) <= List.length zs) by lia.
    rewrite <- (firstn_skipn (List.length (elems din)) zs) in Hl.
    rewrite length_app, length_firstn in Hl.
    rewrite IH by lia.
    rewrite skipn_skipn, length_app, <- !app_assoc.
    now rewrite (Nat.add_comm (List.length (List.concat (map elems outer)))).
Qed.

Lemma flattenLength_spec (ti t : rtype) (outer : list val) :
  Type_Elem ti = Ok t ->
  forall n, flattenLength (map (Val ti) outer) n
            = Some (n + List.length (List.concat (map elems outer))).
Proof.
  intros Ti.
  assert (K : Kind_eqb (Type_Kind ti) Slice || Kind_eqb (Type_Kind ti) Array = true).
  { destruct ti; try discriminate; reflexivity. }
  induction outer as [ | din outer IH]; intros n; cbn [map flattenLength List.concat].
  - simpl. f_equal. lia.
  - cbn [Value_Kind]. rewrite K, IH. cbn [Value_Len]. rewrite length_app.
    f_equal. lia.
Qed.

(** X16: on a slice or an array of slices or arrays whose first inner
    sequence is not empty, [Flatten] returns, with a nil error, a new slice
    of the inner element type holding the elements of the inner sequences
    one after the other. *)
Theorem Flatten_concatenates (tout ti t : rtype) (d first : val) (rest : list val) :
  Type_Elem tout = Ok ti ->
  Type_Elem ti = Ok t ->
  elems d = first :: rest ->
  elems first <> [] ->
  Flatten (Of (Box tout d))
  = Ok (Of (Box (Tslice t) (Vslice (List.concat (map elems (elems d))))), None).
Proof.
  intros To Ti Hd Hf. unfold Flatten. cbn [ValueOf Value_Kind].
  assert (Ko : Kind_eqb (Type_Kind tout) Slice || Kind_eqb (Type_Kind tout) Array = true).
  { destruct tout; try discriminate; reflexivity. }
  assert (El : elements (Val tout d) = map (Val ti) (elems d)).
  { destruct tout; try discriminate; injection To as ->; reflexivity. }
  rewrite Ko, El, (flattenLength_spec ti t (elems d) Ti 0). cbn [Nat.add].
  assert (I0 : Value_Index (Val tout d) 0 = Ok (Val ti first)).
  { destruct tout; try discriminate; injection To as ->; cbn [Value_Index];
      now rewrite Hd. }
  rewrite I0. cbn [bind].
  destruct (elems first) as [ | f0 fs] eqn:Ef; [now contradiction Hf|].
  assert (I1 : Value_Index (Val ti first) 0 = Ok (Val t f0)).
  { destruct ti; try discriminate; injection Ti as ->; cbn [Value_Index];
      now rewrite Ef. }
  rewrite I1. cbn [bind Value_Type MakeSlice Nat.ltb Nat.leb].
  rewrite Nat.sub_0_r.
  pose proof (flattenFill_spec ti t (elems d) Ti []
                (repeat (zero t) (List.length (List.concat (map elems (elems d)))))) as F.
  cbn [List.length app] in F. rewrite F by now rewrite repeat_length.
  cbn [bind]. rewrite skipn_all2 by now rewrite repeat_length.
  now rewrite app_nil_r.
Qed.

(** X17: [Flatten] panics, with an index out of range, on an empty slice or
    array of any element type, and on a slice or array of slices or arrays
    whose first inner sequence is empty. *)
Theorem Flatten_panics_on_empty (tout ti : rtype) (d : val) :
  Type_Elem tout = Ok ti ->
  elems d = []
  \/ (exists t first rest,
        Type_Elem ti = Ok t /\ elems d = first :: rest /\ elems first = []) ->
  Flatten (Of (Box tout d)) = Panicked "reflect: slice index out of range".
Proof.
  intros To H. unfold Flatten. cbn [ValueOf Value_Kind].
  assert (Ko : Kind_eqb (Type_Kind tout) Slice || Kind_eqb (Type_Kind tout) Array = true).
  { destruct tout; try discriminate; reflexivity. }
  assert (El : elements (Val tout d) = map (Val ti) (elems d)).
  { destruct tout; try discriminate; injection To as ->; reflexivity. }
  rewrite Ko, El. destruct H as [Hd | [t [first [rest [Ti [Hd Hf]]]]]].
  - rewrite Hd. cbn [map flattenLength].
    destruct tout; try discriminate; cbn [Value_Index]; now rewrite Hd.
  - rewrite (flattenLength_spec ti t (elems d) Ti 0).
    assert (I0 : Value_Index (Val tout d) 0 = Ok (Val ti first)).
    { destruct tout; try discriminate; injection To as ->; cbn [Value_Index];
        now rewrite Hd. }
    rewrite I0. cbn [bind].
    destruct ti; try discriminate; cbn [Value_Index]; now rewrite Hf.
Qed.

(** ** Beyond the specification: shortest and ShortestString *)

Lemma shortestLoop_strings (l : list string) :
  forall cur,
    shortestLoop (map (Val Tstring) (map Vstring l)) (Box Tstring (Vstring cur))
    = Ok (Box Tstring
              (Vstring (fold_left (fun c x =>
                                     if String.length x <? String.length c
                                     then x else c) l cur))).
Proof.
  induction l as [ | x l IH]; intros cur; [reflexivity|].
  cbn [map shortestLoop shortestStep Value_Kind Type_Kind Kind_eqb Value_String
       ValueOf fold_left].
  destruct (String.length x <? String.length cur); cbn [bind Value_Interface]; apply IH.
Qed.

Lemma shortest_fold (l : list string) :
  forall cur,
    let r := fold_left (fun c x => if String.length x <? String.length c then x else c)
                       l cur in
    (r = cur /\ forall x, In x l -> String.length cur <= String.length x)
    \/ (exists pre post,
          l = pre ++ r :: post
          /\ String.length r < String.length cur
          /\ (forall x, In x pre -> String.length r < String.length x)
          /\ (forall x, In x post -> String.length r <= String.length x)).
Proof.
  induction l as [ | x l IH]; intros cur; cbn [fold_left].
  - left. split; [reflexivity | intros x []].
  - destruct (String.length x <? String.length cur) eqn:C.
    + apply Nat.ltb_lt in C. right. destruct (IH x) as [[E H] | [pre [post [E [L [P Q]]]]]].
      * exists [], l. cbv zeta in E. rewrite E. repeat split; try easy.
      * cbv zeta in E, L, P, Q. exists (x :: pre), post. rewrite E at 1.
        repeat split; try easy; try lia.
        intros y [<- | Hy]; [lia | now apply P].
    + apply Nat.ltb_ge in C. destruct (IH cur) as [[E H] | [pre [post [E [L [P Q]]]]]].
      * left. split; [exact E|]. intros y [<- | Hy]; [lia | now apply H].
      * right. cbv zeta in E, L, P, Q. exists (x :: pre), post. rewrite E at 1.
        repeat split; try easy.
        intros y [<- | Hy]; [lia | now apply P].
Qed.

(** X18: [ShortestString] panics on a slice without elements (the type
    assertion meets nil); on any other it returns, with a nil error, the
    first of the strings with the fewest bytes: every string before it is
    longer and none after it is shorter. *)
Theorem ShortestString_first_shortest (src : list string) :
  match src with
  | [] => ShortestString src
          = Panicked "interface conversion: interface {} is not string"
  | _ =>
      exists pre s post,
        src = pre ++ s :: post
        /\ ShortestString src = Ok (s, None)
        /\ (forall x, In x pre -> String.length s < String.length x)
        /\ (forall x, In x post -> String.length s <= String.length x)
  end.
Proof.
  destruct src as [ | s0 l]; [reflexivity|].
  assert (R : ShortestString (s0 :: l)
              = Ok (fold_left (fun c x => if String.length x <? String.length c
                                          then x else c) l s0, None)).
  { unfold ShortestString, shortest, stringSlice.
    cbn [ValueOf isSlice Value_Kind Type_Kind Kind_eqb negb elements elems map
         shortestLoop shortestStep Value_Interface bind].
    rewrite shortestLoop_strings. reflexivity. }
  pose proof (shortest_fold l s0) as H. cbv zeta in H.
  set (r := fold_left (fun c x => if String.length x <? String.length c then x else c)
                      l s0) in *.
  clearbody r. rewrite R. destruct H as [[E H] | [pre [post [E [L [P Q]]]]]].
  - subst r. exists [], s0, l. repeat split; try easy.
  - subst l. exists (s0 :: pre), r, post. repeat split; try easy.
    intros y [<- | Hy]; [lia | now apply P].
Qed.

Lemma shortestLoop_ints (l : list Z) :
  forall cur,
    shortestLoop (map (Val Tint) (map Vint l)) (Box Tint (Vint cur))
    = Ok (Box Tint (Vint (fold_left Z.min l cur))).
Proof.
  induction l as [ | x l IH]; intros cur; [reflexivity|].
  cbn [map shortestLoop shortestStep Value_Kind Type_Kind Kind_eqb Value_Int
       ValueOf fold_left bind].
  destruct (x <? cur)%Z eqn:C; cbn [bind Value_Interface]; rewrite IH; do 3 f_equal.
  - apply Z.ltb_lt in C. now rewrite Z.min_r by lia.
  - apply Z.ltb_ge in C. now rewrite Z.min_l by lia.
Qed.

Lemma fold_min (l : list Z) :
  forall cur,
    (forall x, In x (cur :: l) -> (fold_left Z.min l cur <= x)%Z)
    /\ In (fold_left Z.min l cur) (cur :: l).
Proof.
  induction l as [ | a l IH]; intros cur; cbn [fold_left].
  - split; [intros x [<- | []]; lia | now left].
  - destruct (IH (Z.min cur a)) as [Le Mem]. split.
    + intros x [Hx | [Hx | Hx]].
      * specialize (Le (Z.min cur a) (or_introl eq_refl)). lia.
      * specialize (Le (Z.min cur a) (or_introl eq_refl)). lia.
      * apply Le. now right.
    + destruct Mem as [Mem | Mem]; [|right; now right].
      rewrite <- Mem. destruct (Z.min_spec cur a) as [[_ ->] | [_ ->]];
        [now left | right; now left].
Qed.

(** X19: [shortest] on a non-empty [[]int] returns its least element with a
    nil error; on an empty slice it returns nil and a nil error, and on
    what is no slice nil and NotASequence. *)
Theorem shortest_of_ints (l : list Z) :
  match l with
  | [] => shortest (intSlice l) = Ok (Nil, None)
  | _ => exists m, shortest (intSlice l) = Ok (Box Tint (Vint m), None)
                   /\ In m l /\ forall x, In x l -> (m <= x)%Z
  end
  /\ forall src, isSlice (ValueOf src) = false ->
                 shortest src = Ok (Nil, Some ErrNotSlice).
Proof.
  split.
  - destruct l as [ | n l]; [reflexivity|].
    exists (fold_left Z.min l n). destruct (fold_min l n) as [Le Mem].
    split; [|split; [exact Mem | exact Le]].
    unfold shortest, intSlice, ints.
    cbn [ValueOf isSlice Value_Kind Type_Kind Kind_eqb negb elements elems map
         shortestLoop shortestStep Value_Interface bind].
    now rewrite shortestLoop_ints.
  - intros src S. unfold shortest. now rewrite S.
Qed.

(** ** Beyond the specification: Glob's use of Remove *)

Section GlobFacts.

Variable Regexp : Type.
Variable MatchString : Regexp -> string -> result bool.
Variable oserror : Type.
Variable Join : string -> string -> string.
Variable Expand : string -> list string * option oserror.
Variable LsAll : string -> result (list string * option oserror).

Lemma Remove_strings (m matches : list string) :
  Remove AddressOf (stringSlice m) (Tslice Tstring, Vslice (map Vstring matches))
  = (Ok None,
     (Tslice Tstring,
      removed Tstring (map (fun s => Box Tstring (Vstring s)) m)
              (Vslice (map Vstring matches)))).
Proof.
  unfold stringSlice. rewrite Remove_slice_variable. cbn [toValue ValueOf].
  rewrite (proj1 (RemoveValue_removed _ (Tslice Tstring) Tstring _) eq_refl).
  do 3 f_equal. cbn [scalars]. induction m as [ | s m IH]; [reflexivity|].
  cbn [map flat_map scalars ifaceOf app]. now rewrite IH.
Qed.

Lemma existsb_strings (f : string) (m : list string) :
  existsb (DeepEqual (ifaceOf Tstring (Vstring f)))
          (map (fun s => Box Tstring (Vstring s)) m)
  = existsb (String.eqb f) m.
Proof.
  induction m as [ | s m IHm]; [reflexivity|].
  cbn [map existsb]. rewrite IHm. reflexivity.
Qed.

Lemma stringsOf_removed (m matches : list string) :
  stringsOf (removed Tstring (map (fun s => Box Tstring (Vstring s)) m)
                     (Vslice (map Vstring matches)))
  = filter (fun f => negb (existsb (String.eqb f) m)) matches.
Proof.
  unfold stringsOf. rewrite removed_elems. cbn [elems].
  induction matches as [ | f l IH]; [reflexivity|].
  cbn [map filter].
  rewrite existsb_strings. destruct (existsb (String.eqb f) m); cbn [negb flat_map app];
    now rewrite IH.
Qed.

(** X20: [Glob] with a string pattern, a string base and a string
    exclusion returns, with a nil error, the paths the pattern expands to
    that are not among those the exclusion expands to, in their order:
    [slice.Remove] cannot fail on the two [[]string]. *)
Theorem Glob_excludes (patt base excl : string) (matches m : list string) :
  Expand (if 0 <? String.length base then Join base patt else patt) = (matches, None) ->
  Expand (Join base excl) = (m, None) ->
  Glob Regexp MatchString oserror Join Expand LsAll
       (GString Regexp patt) [GString Regexp base; GString Regexp excl]
  = Ok (filter (fun f => negb (existsb (String.eqb f) m)) matches, None).
Proof.
  intros Hp He. unfold Glob.
  change (2 <? List.length [GString Regexp base; GString Regexp excl]) with false.
  cbv iota. rewrite Hp, He, Remove_strings. cbn [snd]. now rewrite stringsOf_removed.
Qed.

(** X21: with a string pattern, [Glob]'s call of [slice.Remove] on the two
    [[]string] neither fails nor panics: whatever [extglob.Expand] returns,
    [Glob] returns, and its error is never one of [slice.Remove]'s. *)
Theorem Glob_no_slice_error (patt : string) (opts : list (globarg Regexp)) :
  exists l err,
    Glob Regexp MatchString oserror Join Expand LsAll (GString Regexp patt) opts
    = Ok (l, err)
    /\ forall e, err <> Some (ErrSlice oserror e).
Proof.
  unfold Glob. destruct (2 <? List.length opts);
    [eexists; eexists; split; [reflexivity|discriminate]|].
  destruct (Expand _) as [matches [err|]];
    [eexists; eexists; split; [reflexivity|discriminate]|].
  destruct opts as [ | o0 [ | [val1 | r1 | ] opts]];
    try (eexists; eexists; split; [reflexivity|discriminate]).
  destruct (Expand (Join _ val1)) as [m [err|]];
    [eexists; eexists; split; [reflexivity|discriminate]|].
  rewrite Remove_strings. eexists; eexists; split; [reflexivity|discriminate].
Qed.

End GlobFacts.

(** ** Instances *)

Lemma Remove_removes_the_scalars_witness :
  Remove AddressOf
         (Of (Box (Tslice (Tslice Tint)) (Vslice [ints [2]%Z; ints [5; 3]%Z])))
         (Tslice Tint, ints [1; 2; 3; 2]%Z)
  = (Ok None, (Tslice Tint, ints [1]%Z))
  /\ (Tslice Tint = Tslice Tint /\ map Vint [1]%Z = map Vint [1]%Z).
Proof.
  split; [reflexivity|].
  apply (Remove_removes_the_scalars
           (Of (Box (Tslice (Tslice Tint)) (Vslice [ints [2]%Z; ints [5; 3]%Z])))
           (Tslice (Tslice Tint)) Tint (Vslice [ints [2]%Z; ints [5; 3]%Z])
           (ints [1; 2; 3; 2]%Z) (Tslice Tint, ints [1]%Z)).
  - reflexivity.
  - reflexivity.
Defined.

Lemma Remove_twice_witness :
  Remove AddressOf (intSlice [2; 5]%Z) (Tslice Tint, ints [1; 2; 3; 2]%Z)
  = (Ok None, (Tslice Tint, ints [1; 3]%Z))
  /\ Remove AddressOf (intSlice [2; 5]%Z) (Tslice Tint, ints [1; 3]%Z)
     = (Ok None, (Tslice Tint, ints [1; 3]%Z)).
Proof.
  split; [reflexivity|].
  apply (Remove_twice AddressOf (intSlice [2; 5]%Z) (Tslice Tint, ints [1; 2; 3; 2]%Z)).
  reflexivity.
Defined.

Lemma Remove_then_Contains_witness :
  Remove AddressOf (intSlice [2; 5]%Z) (Tslice Tint, ints [1; 2; 3; 2]%Z)
  = (Ok None, (Tslice Tint, ints [1; 3]%Z))
  /\ Contains (intSlice [1; 3]%Z) (intSlice [2; 5]%Z) = Some (Ok (false, None)).
Proof.
  split; [reflexivity|].
  apply (Remove_then_Contains Tint Tint (ints [2; 5]%Z) (ints [1; 2; 3; 2]%Z)
           (Tslice Tint, ints [1; 3]%Z)).
  - discriminate.
  - discriminate.
  - discriminate.
  - reflexivity.
Defined.

Lemma removeFromSlice_ascending_witness :
  removeFromSlice [1; 3] (Val (Tslice Tint) (ints [10; 11; 12; 13; 14]%Z))
  = Ok (Val (Tslice Tint) (ints [10; 12; 14]%Z))
  /\ 3 + 2 = 5.
Proof.
  apply (removeFromSlice_ascending [1; 3] Tint (ints [10; 11; 12; 13; 14]%Z)).
  - repeat constructor.
  - repeat constructor.
Defined.

Lemma Contains_only_error_witness :
  Contains (int 1) (int 1) = Some (Ok (false, Some ErrNotSlice))
  /\ (false = false /\ ErrNotSlice = ErrNotSlice).
Proof.
  split; [reflexivity|].
  apply (Contains_only_error (int 1) (int 1) false ErrNotSlice). reflexivity.
Defined.

Lemma Contains_any_of_witness :
  exists b,
    Contains (intSlice [1; 2; 3]%Z) (intSlice [2; 5]%Z) = Some (Ok (b, None))
    /\ (b = true <->
        exists di nj, In di (map Vint [1; 2; 3]%Z) /\ In nj (map Vint [2; 5]%Z)
                      /\ ifaceOf Tint nj = ifaceOf Tint di).
Proof.
  apply (Contains_any_of Tint Tint (ints [1; 2; 3]%Z) (ints [2; 5]%Z)).
  - discriminate.
  - discriminate.
Defined.

Lemma Contains_one_witness :
  exists b,
    Contains (intSlice [1; 2; 3]%Z) (int 2) = Some (Ok (b, None))
    /\ (b = true <->
        exists di, In di (map Vint [1; 2; 3]%Z) /\ ifaceOf Tint di = ifaceOf Tint (Vint 2)).
Proof.
  apply (Contains_one Tint Tint (ints [1; 2; 3]%Z) (Vint 2) (int 2)).
  - reflexivity.
  - discriminate.
  - discriminate.
Defined.

Lemma Unique_returns_or_panics_witness :
  Unique noStructs AddressOf (Tslice (Tslice Tint), Vslice [ints [1]%Z])
  = (Panicked "runtime error: hash of unhashable type",
     (Tslice (Tslice Tint), Vslice [ints [1]%Z])).
Proof.
  apply (proj2 (Unique_returns_or_panics noStructs (Tslice Tint) (Vslice [ints [1]%Z]))).
  reflexivity.
Defined.

Lemma Unique_basic_and_struct_elements_witness :
  fst (Unique noStructs AddressOf
              (Tslice (Tstruct "S" [Tslice Tint]),
               Vslice [Vstruct [ints [1]%Z]; Vstruct [ints [1]%Z]]))
  = Ok None.
Proof.
  apply (Unique_basic_and_struct_elements noStructs (Tstruct "S" [Tslice Tint])).
  right. right. right. reflexivity.
Defined.

Lemma Intersect_twice_witness :
  Intersect noStructs AddressOf (intSlice [2; 3; 7]%Z) (Tslice Tint, ints [1; 2; 1; 3; 2]%Z)
  = (Ok None, (Tslice Tint, ints [2; 3; 2]%Z))
  /\ Intersect noStructs AddressOf (intSlice [2; 3; 7]%Z) (Tslice Tint, ints [2; 3; 2]%Z)
     = (Ok None, (Tslice Tint, ints [2; 3; 2]%Z)).
Proof.
  split; [reflexivity|].
  apply (Intersect_twice noStructs AddressOf (intSlice [2; 3; 7]%Z)
           (Tslice Tint, ints [1; 2; 1; 3; 2]%Z)).
  reflexivity.
Defined.

Lemma Intersect_self_witness :
  Intersect noStructs AddressOf (intSlice [1; 2; 1]%Z) (Tslice Tint, ints [1; 2; 1]%Z)
  = (Ok None, (Tslice Tint, ints [1; 2; 1]%Z)).
Proof.
  apply (Intersect_self noStructs Tint (ints [1; 2; 1]%Z)). reflexivity.
Defined.

Lemma Concat_twice_witness :
  Concat noStructs AddressOf (intSlice [2; 1; 3]%Z) (Tslice Tint, ints [1]%Z)
  = (Ok None, (Tslice Tint, ints [1; 2; 3]%Z))
  /\ Concat noStructs AddressOf (intSlice [2; 1; 3]%Z) (Tslice Tint, ints [1; 2; 3]%Z)
     = (Ok None, (Tslice Tint, ints [1; 2; 3]%Z)).
Proof.
  split; [reflexivity|].
  apply (Concat_twice noStructs Tint (ints [2; 1; 3]%Z) (ints [1]%Z)).
  reflexivity.
Defined.

Lemma Concat_other_element_type_witness :
  Concat noStructs AddressOf (Of (Box (Tslice Tstring) (Vslice [Vstring "a"])))
         (Tslice Tint, ints [1]%Z)
  = (Panicked "reflect.Set: value is not assignable to type", (Tslice Tint, ints [1]%Z)).
Proof.
  apply (Concat_other_element_type noStructs Tint Tstring (Vslice [Vstring "a"])
           (ints [1]%Z)).
  - reflexivity.
  - reflexivity.
  - reflexivity.
  - exists (Vstring "a"). split; [now left|].
    intros [H | []]. discriminate H.
Defined.


Lemma Flatten_concatenates_witness :
  Flatten (Of (Box (Tslice (Tarray 2 Tint))
                   (Vslice [Varray (map Vint [1; 2]%Z); Varray (map Vint [3; 4]%Z)])))
  = Ok (intSlice [1; 2; 3; 4]%Z, None).
Proof.
  apply (Flatten_concatenates (Tslice (Tarray 2 Tint)) (Tarray 2 Tint) Tint
           (Vslice [Varray (map Vint [1; 2]%Z); Varray (map Vint [3; 4]%Z)])
           (Varray (map Vint [1; 2]%Z)) [Varray (map Vint [3; 4]%Z)]).
  - reflexivity.
  - reflexivity.
  - reflexivity.
  - discriminate.
Defined.

Lemma Flatten_panics_on_empty_witness :
  Flatten (Of (Box (Tslice (Tslice Tint)) (Vslice [ints []; ints [1]%Z])))
  = Panicked "reflect: slice index out of range".
Proof.
  apply (Flatten_panics_on_empty (Tslice (Tslice Tint)) (Tslice Tint)
           (Vslice [ints []; ints [1]%Z])).
  - reflexivity.
  - right. exists Tint, (ints []), [ints [1]%Z]. repeat split.
Defined.

Lemma Flatten_pass_through_witness :
  Flatten (Of (Box (Tslice Tiface) (Vslice [Viface (Tslice Tint) (ints [1]%Z)])))
  = Ok (Of (Box (Tslice Tiface) (Vslice [Viface (Tslice Tint) (ints [1]%Z)])), None).
Proof.
  apply (Flatten_pass_through
           (Of (Box (Tslice Tiface) (Vslice [Viface (Tslice Tint) (ints [1]%Z)])))).
  right. exists Tiface, (Vslice [Viface (Tslice Tint) (ints [1]%Z)]).
  repeat split; discriminate.
Defined.

Lemma Flatten_error_nil_witness :
  Flatten (intSlice [1; 2]%Z) = Ok (intSlice [1; 2]%Z, None) /\ @None error = None.
Proof.
  split; [reflexivity|].
  apply (Flatten_error_nil (intSlice [1; 2]%Z) (intSlice [1; 2]%Z) None). reflexivity.
Defined.

Lemma Glob_excludes_witness :
  Glob unit (fun _ _ => Ok false) unit
       (fun a b => String.append a (String.append "/" b))
       (fun p => if String.eqb p "src/*.go" then (["src/a.go"; "src/b.go"], None)
                 else (["src/b.go"], None))
       (fun _ => Ok ([], None))
       (GString unit "*.go") [GString unit "src"; GString unit "b*"]
  = Ok (["src/a.go"], None).
Proof.
  apply (Glob_excludes unit (fun _ _ => Ok false) unit
           (fun a b => String.append a (String.append "/" b))
           (fun p => if String.eqb p "src/*.go" then (["src/a.go"; "src/b.go"], None)
                     else (["src/b.go"], None))
           (fun _ => Ok ([], None)) "*.go" "src" "b*" ["src/a.go"; "src/b.go"]
           ["src/b.go"]).
  - reflexivity.
  - reflexivity.
Defined.
